(** * PTY terminal relay: token codec, session manager, context relay

    A shallow embedding of the terminal server (Express + ws + node-pty).

    Conventions of the embedding.
    - A JavaScript string is represented by its UTF-8 bytes, as a [string]
      (one [ascii] per byte).  Splitting on ASCII characters, prefix tests and
      emptiness tests agree with the JavaScript operations on well-formed
      strings.
    - Millisecond timestamps and TTLs are JavaScript numbers holding integers;
      they are represented in [Z].  The representation is exact on the range
      where [Date.now() + TOKEN_TTL] is printed in plain decimal notation.
    - [console.log / warn / error] calls are not recorded.
    - Functions of the Node runtime that the server calls ([parseInt],
      [String.prototype.split], [Buffer.from(_, 'hex')],
      [crypto.timingSafeEqual], HMAC-SHA256, POSIX [path.resolve],
      [encodeURIComponent], [decodeURIComponent]) are modelled by the
      definitions of the first part of the file. *)

From Stdlib Require Import ZArith QArith Ascii String List Bool Lia.
From stdpp Require Import base list strings.

Local Open Scope Z_scope.

#[local] Arguments String.append : simpl nomatch.

(** ** Results of JavaScript calls that may throw *)

Inductive jsError : Type :=
  | RangeError (msg : string)
  | TypeError (msg : string)
  | URIError (msg : string)
  | Error (msg : string).

Inductive outcome (A : Type) : Type :=
  | Return (a : A)
  | Throw (e : jsError).
Arguments Return {A} a.
Arguments Throw {A} e.

Definition bindO {A B} (m : outcome A) (k : A -> outcome B) : outcome B :=
  match m with
  | Return a => k a
  | Throw e => Throw e
  end.

Declare Scope js_scope.
Delimit Scope js_scope with js.
Notation "'let*' x := m 'in' k" := (bindO m (fun x => k))
  (at level 10, x name, m at level 100, k at level 200) : js_scope.
Local Open Scope js_scope.

(** ** Characters and strings *)

Module Chr.

Definition code (c : ascii) : Z := Z.of_N (N_of_ascii c).
Definition of_code (z : Z) : ascii := ascii_of_N (Z.to_N z).

Definition eqb (a b : ascii) : bool := Ascii.eqb a b.

Definition is_digit (c : ascii) : bool := (48 <=? code c) && (code c <=? 57).

Definition digit_value (c : ascii) : Z := code c - 48.

(** Value of a hexadecimal digit, either case. *)
Definition unhex (c : ascii) : option Z :=
  let n := code c in
  if (48 <=? n) && (n <=? 57) then Some (n - 48)
  else if (97 <=? n) && (n <=? 102) then Some (n - 87)
  else if (65 <=? n) && (n <=? 70) then Some (n - 55)
  else None.

(** Lower-case hexadecimal digit of a value below 16. *)
Definition hexdigit (n : Z) : ascii :=
  if n <? 10 then of_code (48 + n) else of_code (87 + n).

(** Upper-case hexadecimal digit, as [encodeURIComponent] prints escapes. *)
Definition HEXDIGIT (n : Z) : ascii :=
  if n <? 10 then of_code (48 + n) else of_code (55 + n).

Definition to_lower (c : ascii) : ascii :=
  let n := code c in
  if (65 <=? n) && (n <=? 90) then of_code (n + 32) else c.

End Chr.

Module Str.

Fixpoint all (p : ascii -> bool) (s : string) : bool :=
  match s with
  | EmptyString => true
  | String c s' => p c && all p s'
  end.

Definition is_empty (s : string) : bool :=
  match s with EmptyString => true | _ => false end.

(** [s.startsWith(p)] *)
Fixpoint startsWith (s p : string) {struct p} : bool :=
  match p with
  | EmptyString => true
  | String b p' =>
      match s with
      | EmptyString => false
      | String a s' => Chr.eqb a b && startsWith s' p'
      end
  end.

(** [s.split(c)] for a one-character separator. *)
Fixpoint split (c : ascii) (s : string) : list string :=
  match s with
  | EmptyString => [EmptyString]
  | String a s' =>
      if Chr.eqb a c then EmptyString :: split c s'
      else match split c s' with
           | h :: t => String a h :: t
           | [] => [String a EmptyString]
           end
  end.

(** [parts.join(sep)] *)
Fixpoint join (sep : string) (parts : list string) : string :=
  match parts with
  | [] => EmptyString
  | [p] => p
  | p :: rest => p +:+ sep +:+ join sep rest
  end.

Fixpoint map (f : ascii -> ascii) (s : string) : string :=
  match s with
  | EmptyString => EmptyString
  | String c s' => String (f c) (map f s')
  end.

Definition toLowerCase (s : string) : string := map Chr.to_lower s.

Definition bytes (s : string) : list ascii := list_ascii_of_string s.

End Str.

(** [c] is not the separator [sep]. *)
Definition differs (sep : ascii) (c : ascii) : bool := negb (Chr.eqb c sep).

(** ** Numbers *)

Module Num.

Definition digit_char (d : Z) : ascii := Chr.of_code (48 + d).

Fixpoint digits (fuel : nat) (n : Z) (acc : string) : string :=
  let acc' := String (digit_char (n mod 10)) acc in
  match fuel with
  | O => acc'
  | S fuel' => if n / 10 =? 0 then acc' else digits fuel' (n / 10) acc'
  end.

(** Decimal digits of a natural number; [Z.log2 n + 1] bounds their count. *)
Definition decimal (n : Z) : string :=
  digits (Z.to_nat (Z.log2 n)) n EmptyString.

(** [String(n)] / [`${n}`] for an integer-valued number, in plain decimal,
    as the source prints integers of magnitude below 10^21. *)
Definition toString (n : Z) : string :=
  if n <? 0 then String "-" (decimal (- n)) else decimal n.

(** White space skipped by [parseInt]: TAB, LF, VT, FF, CR, SP and the
    UTF-8 encodings of U+00A0, U+1680, U+2000..U+200A, U+2028, U+2029,
    U+202F, U+205F, U+3000 and U+FEFF. *)
Fixpoint skip_ws (fuel : nat) (s : string) : string :=
  match fuel with
  | O => s
  | S fuel' =>
      match s with
      | String a r1 =>
          let n := Chr.code a in
          if ((9 <=? n) && (n <=? 13)) || (n =? 32) then skip_ws fuel' r1
          else
            match r1 with
            | String b r2 =>
                let m := Chr.code b in
                if (n =? 194) && (m =? 160) then skip_ws fuel' r2
                else
                  match r2 with
                  | String c r3 =>
                      let k := Chr.code c in
                      if ((n =? 225) && (m =? 154) && (k =? 128))
                         || ((n =? 226) && (m =? 128)
                             && (((128 <=? k) && (k <=? 138)) || (k =? 168)
                                 || (k =? 169) || (k =? 175)))
                         || ((n =? 226) && (m =? 129) && (k =? 159))
                         || ((n =? 227) && (m =? 128) && (k =? 128))
                         || ((n =? 239) && (m =? 187) && (k =? 191))
                      then skip_ws fuel' r3
                      else s
                  | EmptyString => s
                  end
            | EmptyString => s
            end
      | EmptyString => s
      end
  end.

(** The longest prefix of decimal digits, accumulated from the left. *)
Fixpoint parse_digits (acc : Z) (s : string) : Z :=
  match s with
  | String c s' =>
      if Chr.is_digit c then parse_digits (10 * acc + Chr.digit_value c) s'
      else acc
  | EmptyString => acc
  end.

Definition starts_with_digit (s : string) : bool :=
  match s with
  | String c _ => Chr.is_digit c
  | EmptyString => false
  end.

(** [parseInt(s, 10)]; [None] stands for [NaN].  The result is the integer
    the digits denote; the source's result is that integer as a double,
    which is the same number for the safe integers. *)
Definition parseInt (s : string) : option Z :=
  let s1 := skip_ws (String.length s) s in
  let '(sign, s2) :=
    match s1 with
    | String c r =>
        if Chr.eqb c "-" then (-1, r)
        else if Chr.eqb c "+" then (1, r)
        else (1, s1)
    | EmptyString => (1, s1)
    end in
  if starts_with_digit s2 then Some (sign * parse_digits 0 s2) else None.

(** [Number.MAX_SAFE_INTEGER] and [Number.isSafeInteger], on an integer.

    The source computes with doubles.  On safe integers a sum that is safe
    is exact, [String(n)] is the plain decimal numeral and [parseInt] gives
    back the integer that was printed, which is what the sums in [Z],
    [toString] and [parseInt] of this model do.  Beyond that range the
    source rounds to 53 bits, and from 10^21 on it prints an exponent; the
    statements below that depend on the value of an expiry are therefore
    made for safe integers. *)
Definition MAX_SAFE_INTEGER : Z := 9007199254740991.

Definition isSafeInteger (n : Z) : bool :=
  (- MAX_SAFE_INTEGER <=? n) && (n <=? MAX_SAFE_INTEGER).

End Num.

(** ** Buffers and hexadecimal encoding *)

Module Buffer.

(** [buf.toString('hex')] / [digest('hex')] *)
Fixpoint toHex (b : list ascii) : string :=
  match b with
  | [] => EmptyString
  | c :: b' =>
      String (Chr.hexdigit (Chr.code c / 16))
        (String (Chr.hexdigit (Chr.code c mod 16)) (toHex b'))
  end.

(** [Buffer.from(s, 'hex')]: whole pairs of hexadecimal digits are decoded;
    decoding stops at the first pair that is not hexadecimal, and a trailing
    single character is dropped. *)
Fixpoint fromHex (s : string) : list ascii :=
  match s with
  | String a (String b s') =>
      match Chr.unhex a, Chr.unhex b with
      | Some h, Some l => Chr.of_code (16 * h + l) :: fromHex s'
      | _, _ => []
      end
  | _ => []
  end.

Definition eqb (a b : list ascii) : bool :=
  bool_decide (a = b).

End Buffer.

(** ** SHA-256 and HMAC (FIPS 180-4, RFC 2104) *)

Module Crypto.

Definition mask32 : Z := 0xFFFFFFFF.
Definition add32 (a b : Z) : Z := Z.land (a + b) mask32.
Definition rotr (n x : Z) : Z :=
  Z.lor (Z.shiftr x n) (Z.land (Z.shiftl x (32 - n)) mask32).
Definition not32 (x : Z) : Z := Z.lxor x mask32.

Definition Ch (x y z : Z) : Z := Z.lxor (Z.land x y) (Z.land (not32 x) z).
Definition Maj (x y z : Z) : Z :=
  Z.lxor (Z.lxor (Z.land x y) (Z.land x z)) (Z.land y z).
Definition Sigma0 (x : Z) : Z := Z.lxor (Z.lxor (rotr 2 x) (rotr 13 x)) (rotr 22 x).
Definition Sigma1 (x : Z) : Z := Z.lxor (Z.lxor (rotr 6 x) (rotr 11 x)) (rotr 25 x).
Definition sigma0 (x : Z) : Z := Z.lxor (Z.lxor (rotr 7 x) (rotr 18 x)) (Z.shiftr x 3).
Definition sigma1 (x : Z) : Z := Z.lxor (Z.lxor (rotr 17 x) (rotr 19 x)) (Z.shiftr x 10).

(** The round constants and the initial state are the first 32 fractional
    bits of the cube roots and of the square roots of the first primes. *)
Definition primes : list Z :=
  [ 2; 3; 5; 7; 11; 13; 17; 19; 23; 29; 31; 37; 41; 43; 47; 53; 59; 61; 67; 71;
    73; 79; 83; 89; 97; 101; 103; 107; 109; 113; 127; 131; 137; 139; 149; 151;
    157; 163; 167; 173; 179; 181; 191; 193; 197; 199; 211; 223; 227; 229; 233;
    239; 241; 251; 257; 263; 269; 271; 277; 281; 283; 293; 307; 311 ].

(** The largest [r] below [2 ^ bits] with [r ^ k <= n], found bit by bit. *)
Fixpoint root (k : Z) (bits : nat) (n r : Z) : Z :=
  match bits with
  | O => r
  | S bits' =>
      let c := r + 2 ^ Z.of_nat bits' in
      root k bits' n (if c ^ k <=? n then c else r)
  end.

Definition fractional_root (k p : Z) : Z :=
  Z.land (root k 40 (p * 2 ^ (32 * k)) 0) mask32.

Definition K : list Z :=
  Eval vm_compute in List.map (fractional_root 3) primes.

Record hstate : Type := HState {
  ha : Z; hb : Z; hc : Z; hd : Z; he : Z; hf : Z; hg : Z; hh : Z
}.

Definition H0 : hstate :=
  Eval vm_compute in
    match List.map (fractional_root 2) (firstn 8 primes) with
    | [a; b; c; d; e; f; g; h] => HState a b c d e f g h
    | _ => HState 0 0 0 0 0 0 0 0
    end.

(** One round; [w] is the sliding window of the last sixteen schedule words. *)
Definition round (k : Z) (w : list Z) (s : hstate) : list Z * hstate :=
  let wt := nth 0 w 0 in
  let t1 := add32 (add32 (add32 (add32 (hh s) (Sigma1 (he s)))
                                (Ch (he s) (hf s) (hg s))) k) wt in
  let t2 := add32 (Sigma0 (ha s)) (Maj (ha s) (hb s) (hc s)) in
  let wnext := add32 (add32 (add32 (sigma1 (nth 14 w 0)) (nth 9 w 0))
                            (sigma0 (nth 1 w 0))) wt in
  (tl w ++ [wnext],
   HState (add32 t1 t2) (ha s) (hb s) (hc s) (add32 (hd s) t1) (he s) (hf s) (hg s)).

Fixpoint rounds (ks : list Z) (w : list Z) (s : hstate) : hstate :=
  match ks with
  | [] => s
  | k :: ks' => let '(w', s') := round k w s in rounds ks' w' s'
  end.

Definition compress (s : hstate) (w : list Z) : hstate :=
  let r := rounds K w s in
  HState (add32 (ha s) (ha r)) (add32 (hb s) (hb r)) (add32 (hc s) (hc r))
         (add32 (hd s) (hd r)) (add32 (he s) (he r)) (add32 (hf s) (hf r))
         (add32 (hg s) (hg r)) (add32 (hh s) (hh r)).

(** Big-endian words of a block of bytes. *)
Fixpoint words (b : list Z) : list Z :=
  match b with
  | b0 :: b1 :: b2 :: b3 :: b' =>
      (Z.shiftl b0 24 + Z.shiftl b1 16 + Z.shiftl b2 8 + b3) :: words b'
  | _ => []
  end.

Definition be_bytes (n : nat) (x : Z) : list Z :=
  List.map (fun i => Z.land (Z.shiftr x (8 * Z.of_nat i)) 255) (rev (seq 0 n)).

Definition pad (msg : list Z) : list Z :=
  let len := Z.of_nat (length msg) in
  let zeros := Z.to_nat ((55 - len) mod 64) in
  msg ++ [128] ++ repeat 0 zeros ++ be_bytes 8 (8 * len).

Fixpoint blocks (n : nat) (s : hstate) (b : list Z) : hstate :=
  match n with
  | O => s
  | S n' => blocks n' (compress s (words (firstn 64 b))) (skipn 64 b)
  end.

Definition word_bytes (x : Z) : list ascii :=
  [ Chr.of_code (Z.land (Z.shiftr x 24) 255); Chr.of_code (Z.land (Z.shiftr x 16) 255);
    Chr.of_code (Z.land (Z.shiftr x 8) 255); Chr.of_code (Z.land x 255) ].

Definition sha256 (msg : list ascii) : list ascii :=
  let p := pad (List.map Chr.code msg) in
  let s := blocks (Nat.div (length p) 64) H0 p in
  word_bytes (ha s) ++ word_bytes (hb s) ++ word_bytes (hc s) ++ word_bytes (hd s)
    ++ word_bytes (he s) ++ word_bytes (hf s) ++ word_bytes (hg s) ++ word_bytes (hh s).

Definition xor_pad (p : Z) (key : list ascii) : list ascii :=
  List.map (fun c => Chr.of_code (Z.lxor (Chr.code c) p)) key.

(** [crypto.createHmac('sha256', key).update(msg).digest()] *)
Definition hmac_sha256 (key msg : list ascii) : list ascii :=
  let k0 := if (64 <? Z.of_nat (length key)) then sha256 key else key in
  let k := k0 ++ repeat (Chr.of_code 0) (64 - length k0) in
  sha256 (xor_pad 0x5c k ++ sha256 (xor_pad 0x36 k ++ msg)).

End Crypto.

#[global] Arguments Crypto.sha256 : simpl never.
#[global] Arguments Crypto.hmac_sha256 : simpl never.

(** ** POSIX [path] *)

Module Path.

(** [normalizeString]: empty and ["."] segments are dropped and [".."]
    removes the segment before it; above the top, [".."] is kept only for
    relative paths ([allowAboveRoot]).  The stack holds the kept segments,
    last one first. *)
Fixpoint normalize (allowAboveRoot : bool) (segs stack : list string) : list string :=
  match segs with
  | [] => rev stack
  | s :: rest =>
      if bool_decide (s = "") || bool_decide (s = ".") then
        normalize allowAboveRoot rest stack
      else if bool_decide (s = "..") then
        match stack with
        | top :: below =>
            if bool_decide (top = "..") then normalize allowAboveRoot rest (s :: stack)
            else normalize allowAboveRoot rest below
        | [] =>
            if allowAboveRoot then normalize allowAboveRoot rest [s]
            else normalize allowAboveRoot rest []
        end
      else normalize allowAboveRoot rest (s :: stack)
  end.

Definition isAbsolute (p : string) : bool := Str.startsWith p "/".

(** The loop of [path.resolve], from the last argument to the first: empty
    arguments are skipped, and the loop stops at the first absolute one. *)
Fixpoint prepend (args_rev : list string) (resolvedPath : string) : string * bool :=
  match args_rev with
  | [] => (resolvedPath, false)
  | p :: rest =>
      if Str.is_empty p then prepend rest resolvedPath
      else
        let resolvedPath' := p +:+ "/" +:+ resolvedPath in
        if isAbsolute p then (resolvedPath', true) else prepend rest resolvedPath'
  end.

(** [path.resolve(...args)] in a process whose working directory is [cwd]. *)
Definition resolve (cwd : string) (args : list string) : string :=
  let '(resolvedPath, resolvedAbsolute) := prepend (rev (cwd :: args)) "" in
  let normalized :=
    Str.join "/" (normalize (negb resolvedAbsolute) (Str.split "/" resolvedPath) []) in
  if resolvedAbsolute then "/" +:+ normalized
  else if Str.is_empty normalized then "." else normalized.

End Path.

(** ** Configuration and process environment *)

Record config : Type := Config {
  SIGN_SECRET : string;
  SESSION_TIMEOUT : Z;
  TOKEN_TTL : Z;
  ALLOWED_ROOT : string
}.

Record processEnv : Type := ProcessEnv {
  platform_win32 : bool;          (* process.platform === 'win32' *)
  env_HOME : option string;       (* process.env.HOME *)
  env_USERPROFILE : option string;
  env_SHELL : option string;
  env_COMSPEC : option string;
  os_homedir : string;            (* os.homedir() *)
  process_cwd : string            (* process.cwd() *)
}.

(** [a || b] on a value that is a string or [undefined]. *)
Definition orElse (a : option string) (b : string) : string :=
  match a with
  | Some s => if Str.is_empty s then b else s
  | None => b
  end.

(** [!v] on a value that is a string or [undefined]. *)
Definition falsy (v : option string) : bool :=
  match v with
  | Some s => Str.is_empty s
  | None => true
  end.

Definition CONTEXT_REQUEST_TTL_MS : Z := 30000.

(** ** Utility functions of the server *)

Definition generateSid (randomBytes16 : list ascii) : string :=
  Buffer.toHex randomBytes16.

Definition safeJoin (env : processEnv) (root userPath : string) : outcome string :=
  let resolved := Path.resolve (process_cwd env) [root; userPath] in
  if negb (Str.startsWith resolved (Path.resolve (process_cwd env) [root])) then
    Throw (Error "Path traversal detected")
  else Return resolved.

Definition hmacHex (secret payload : string) : string :=
  Buffer.toHex (Crypto.hmac_sha256 (Str.bytes secret) (Str.bytes payload)).

Definition tokenPayload (sid : string) (exp : Z) : string :=
  "pty:" +:+ sid +:+ "|" +:+ Num.toString exp.

(** The expiry is the sum in [Z], which is the source's sum of doubles when
    [safeExpiry] holds. *)
Definition createToken (cfg : config) (now : Z) (sid : string) : string :=
  let exp := now + TOKEN_TTL cfg in
  let payload := tokenPayload sid exp in
  let signature := hmacHex (SIGN_SECRET cfg) payload in
  Num.toString exp +:+ "." +:+ signature.

(** The clock value, the configured token life time and the expiry they add
    up to are safe integers. *)
Definition safeExpiry (cfg : config) (now : Z) : bool :=
  Num.isSafeInteger now && Num.isSafeInteger (TOKEN_TTL cfg)
  && Num.isSafeInteger (now + TOKEN_TTL cfg).

(** [crypto.timingSafeEqual] throws when the two buffers differ in length. *)
Definition timingSafeEqual (a b : list ascii) : outcome bool :=
  if Nat.eqb (length a) (length b) then Return (Buffer.eqb a b)
  else Throw (RangeError "Input buffers must have the same byte length").

(** The body of [verifyToken] below its first guard.  [sidText] is the
    session id as the template literal prints it. *)
Definition checkSignature (cfg : config) (now : Z) (sidText token : string) : outcome bool :=
  match Str.split "." token with
  | [expStr; signature] =>
      match Num.parseInt expStr with
      | None => Return false
      | Some exp =>
          if exp <? now then Return false
          else
            let payload := tokenPayload sidText exp in
            let expectedSignature := hmacHex (SIGN_SECRET cfg) payload in
            timingSafeEqual (Buffer.fromHex signature) (Buffer.fromHex expectedSignature)
      end
  | _ => Return false
  end.

Definition verifyToken (cfg : config) (now : Z) (sid token : string) : outcome bool :=
  if Str.is_empty token || Str.is_empty sid then Return false
  else checkSignature cfg now sid token.

Definition getShell (env : processEnv) : string :=
  if platform_win32 env then orElse (env_COMSPEC env) "powershell.exe"
  else orElse (env_SHELL env) "/bin/sh".

(** The result is [None] where the source returns [undefined] (an unset
    [USERPROFILE] on Windows). *)
Definition getCwd (cfg : config) (env : processEnv) (requestedCwd : option string)
  : option string :=
  if falsy requestedCwd then
    if platform_win32 env then env_USERPROFILE env
    else Some (orElse (env_HOME env) (os_homedir env))
  else
    match safeJoin env (ALLOWED_ROOT cfg) (default "" requestedCwd) with
    | Return resolved => Some resolved
    | Throw _ => Some (os_homedir env)
    end.

(** ** URI component encoding *)

Module URI.

(** Characters [encodeURIComponent] leaves alone: letters, digits and
    [- _ . ! ~ * ' ( )]. *)
Definition unreserved (c : ascii) : bool :=
  let n := Chr.code c in
  ((65 <=? n) && (n <=? 90)) || ((97 <=? n) && (n <=? 122))
  || ((48 <=? n) && (n <=? 57))
  || (n =? 45) || (n =? 95) || (n =? 46) || (n =? 33) || (n =? 126)
  || (n =? 42) || (n =? 39) || (n =? 40) || (n =? 41).

(** Every other byte of the UTF-8 encoding becomes [%XX]. *)
Fixpoint encodeURIComponent (s : string) : string :=
  match s with
  | EmptyString => EmptyString
  | String c s' =>
      if unreserved c then String c (encodeURIComponent s')
      else String "%" (String (Chr.HEXDIGIT (Chr.code c / 16))
             (String (Chr.HEXDIGIT (Chr.code c mod 16)) (encodeURIComponent s')))
  end.

(** One [%XX] escape at the head of [s]. *)
Definition escape (s : string) : option (Z * string) :=
  match s with
  | String c (String a (String b rest)) =>
      if Chr.eqb c "%" then
        match Chr.unhex a, Chr.unhex b with
        | Some h, Some l => Some (16 * h + l, rest)
        | _, _ => None
        end
      else None
  | _ => None
  end.

(** The [n] continuation bytes ([10xxxxxx]) that must follow a lead byte,
    each written as an escape; [v] accumulates the code point. *)
Fixpoint continuation (n : nat) (v : Z) (s : string) : option (Z * string * string) :=
  match n with
  | O => Some (v, EmptyString, s)
  | S n' =>
      match escape s with
      | Some (b, rest) =>
          if (128 <=? b) && (b <=? 191) then
            match continuation n' (64 * v + (b - 128)) rest with
            | Some (v', bytes, rest') => Some (v', String (Chr.of_code b) bytes, rest')
            | None => None
            end
          else None
      | None => None
      end
  end.

Definition malformed {A} : outcome A := Throw (URIError "URI malformed").

(** [decodeURIComponent]: escapes are decoded, and the decoded bytes must be
    well-formed UTF-8 (no stray continuation byte, no overlong form, no
    surrogate, nothing above U+10FFFF). *)
Fixpoint decode (fuel : nat) (s : string) : outcome string :=
  match fuel with
  | O => Return EmptyString
  | S fuel' =>
      match s with
      | EmptyString => Return EmptyString
      | String c rest =>
          if Chr.eqb c "%" then
            match escape s with
            | None => malformed
            | Some (b, rest) =>
                if b <? 128 then
                  let* r := decode fuel' rest in Return (String (Chr.of_code b) r)
                else
                  let '(n, v0, lo, hi) :=
                    if (192 <=? b) && (b <=? 223) then (1%nat, b - 192, 128, 2047)
                    else if (224 <=? b) && (b <=? 239) then (2%nat, b - 224, 2048, 65535)
                    else if (240 <=? b) && (b <=? 247) then (3%nat, b - 240, 65536, 1114111)
                    else (0%nat, 0, 1, 0) in
                  match continuation n v0 rest with
                  | Some (v, bytes, rest') =>
                      if (lo <=? v) && (v <=? hi) && negb ((55296 <=? v) && (v <=? 57343)) then
                        let* r := decode fuel' rest' in
                        Return (String (Chr.of_code b) (bytes +:+ r))
                      else malformed
                  | None => malformed
                  end
            end
          else
            let* r := decode fuel' rest in Return (String c r)
      end
  end.

Definition decodeURIComponent (s : string) : outcome string :=
  decode (String.length s) s.

End URI.

(** ** JavaScript [Map]: entries in insertion order, one per key *)

Module JsMap.
Section WithValue.
Context {V : Type}.

Fixpoint get (k : string) (m : list (string * V)) : option V :=
  match m with
  | [] => None
  | (k', v) :: m' => if bool_decide (k' = k) then Some v else get k m'
  end.

(** [set] overwrites in place, or appends a new entry at the end. *)
Fixpoint set (k : string) (v : V) (m : list (string * V)) : list (string * V) :=
  match m with
  | [] => [(k, v)]
  | (k', v') :: m' =>
      if bool_decide (k' = k) then (k, v) :: m' else (k', v') :: set k v m'
  end.

Fixpoint delete (k : string) (m : list (string * V)) : list (string * V) :=
  match m with
  | [] => []
  | (k', v') :: m' =>
      if bool_decide (k' = k) then delete k m' else (k', v') :: delete k m'
  end.

Definition keys (m : list (string * V)) : list string := List.map fst m.

Definition size (m : list (string * V)) : nat := length m.

End WithValue.
End JsMap.

(** ** JSON values *)

#[local] Set Warnings "-register-all".

Inductive number : Type :=
  | NaN
  | Infinity (negative : bool)
  | Finite (q : Q).

Inductive json : Type :=
  | JNull
  | JBool (b : bool)
  | JNum (n : number)
  | JStr (s : string)
  | JArr (items : list json)
  | JObj (fields : list (string * json)).

Definition numOfZ (z : Z) : number := Finite (inject_Z z).

(** [v.key]; [None] is [undefined].  Only plain objects carry the keys read
    by the server. *)
Definition prop (key : string) (v : json) : option json :=
  match v with
  | JObj fields => JsMap.get key fields
  | _ => None
  end.

(** [Array.isArray(v)], on a value that may be [undefined]. *)
Definition isArray (v : option json) : option (list json) :=
  match v with
  | Some (JArr items) => Some items
  | _ => None
  end.

(** [Number.isFinite(v)], returning the number. *)
Definition isFinite (v : option json) : option number :=
  match v with
  | Some (JNum (Finite q)) => Some (Finite q)
  | _ => None
  end.

(** [v && typeof v === 'object'] *)
Definition isObject (v : option json) : bool :=
  match v with
  | Some (JObj _) | Some (JArr _) => true
  | _ => false
  end.

(** ** Server state *)

Inductive wsMessage : Type :=
  | MsgConnected                     (* { type: 'connected' } *)
  | MsgData (data : string)          (* { type: 'data', data } *)
  | MsgError (message : string).     (* { type: 'error', message } *)

Definition OPEN : Z := 1.
Definition CLOSING : Z := 2.

Record webSocket : Type := WebSocket {
  readyState : Z;
  sent : list wsMessage
}.

(** A process spawned by node-pty, with the variables captured by the
    [onData] and [onExit] callbacks registered in [createSession]. *)
Record ptyProcess : Type := PtyProcess {
  file : string;
  term : string;
  cols : Z;
  rows : Z;
  pty_cwd : option string;
  kills : nat;                       (* calls of kill() *)
  captured_sid : string;
  captured_session : nat
}.

(** A session object.  [pty] and [clients] hold handles into the tables of
    processes and sockets. *)
Record session : Type := Session {
  pty : nat;
  clients : list nat;
  lastSeen : Z;
  name : string
}.

Record viewportRect : Type := Viewport {
  vx : number; vy : number; vwidth : number; vheight : number
}.

Record contextRecord : Type := ContextRecord {
  docs : list json;
  viewport : option viewportRect;
  updatedAt : Z
}.

(** The module-level state.  Session objects live in [objects] and are
    referred to by index, from the [sessions] map and from callbacks; deleting
    a map entry leaves the object in place. *)
Record server : Type := Server {
  sessions : list (string * nat);
  objects : list session;
  ptys : list ptyProcess;
  sockets : list webSocket;
  contextStore : list (string * contextRecord);
  contextRequestTimes : list (string * Z)
}.

Definition emptyServer : server := Server [] [] [] [] [] [].

Definition with_sessions (f : list (string * nat) -> list (string * nat)) (st : server) :=
  Server (f (sessions st)) (objects st) (ptys st) (sockets st)
         (contextStore st) (contextRequestTimes st).
Definition with_objects (f : list session -> list session) (st : server) :=
  Server (sessions st) (f (objects st)) (ptys st) (sockets st)
         (contextStore st) (contextRequestTimes st).
Definition with_ptys (f : list ptyProcess -> list ptyProcess) (st : server) :=
  Server (sessions st) (objects st) (f (ptys st)) (sockets st)
         (contextStore st) (contextRequestTimes st).
Definition with_sockets (f : list webSocket -> list webSocket) (st : server) :=
  Server (sessions st) (objects st) (ptys st) (f (sockets st))
         (contextStore st) (contextRequestTimes st).
Definition with_contextStore
    (f : list (string * contextRecord) -> list (string * contextRecord)) (st : server) :=
  Server (sessions st) (objects st) (ptys st) (sockets st)
         (f (contextStore st)) (contextRequestTimes st).
Definition with_contextRequestTimes (f : list (string * Z) -> list (string * Z)) (st : server) :=
  Server (sessions st) (objects st) (ptys st) (sockets st)
         (contextStore st) (f (contextRequestTimes st)).

(** [sessions.get(sid)]: the reference and the object it denotes. *)
Definition getSession (st : server) (sid : string) : option (nat * session) :=
  match JsMap.get sid (sessions st) with
  | Some ref =>
      match objects st !! ref with
      | Some s => Some (ref, s)
      | None => None
      end
  | None => None
  end.

(** [ws.send(msg)] *)
Definition wsSend (ws : nat) (msg : wsMessage) (st : server) : server :=
  with_sockets (alter (fun w => WebSocket (readyState w) (sent w ++ [msg])) ws) st.

(** [ws.close()]: the closing handshake starts. *)
Definition wsClose (ws : nat) (st : server) : server :=
  with_sockets (alter (fun w => WebSocket CLOSING (sent w)) ws) st.

Definition isOpen (st : server) (ws : nat) : bool :=
  match sockets st !! ws with
  | Some w => readyState w =? OPEN
  | None => false
  end.

(** [pty.kill()] *)
Definition ptyKill (h : nat) (st : server) : server :=
  with_ptys (alter (fun p => PtyProcess (file p) (term p) (cols p) (rows p) (pty_cwd p)
                                        (S (kills p)) (captured_sid p) (captured_session p)) h) st.

Definition touch (now : Z) (s : session) : session :=
  Session (pty s) (clients s) now (name s).

Definition createSession (cfg : config) (env : processEnv) (now : Z)
    (sid : string) (cwd name : option string) (st : server) : server * nat :=
  let shell := getShell env in
  let workingDir := getCwd cfg env cwd in
  let ref := length (objects st) in
  let ptyProcess :=
    PtyProcess shell (orElse name "xterm-color") 80 24 workingDir 0 sid ref in
  let session := Session (length (ptys st)) [] now (orElse name "terminal") in
  (Server (JsMap.set sid ref (sessions st)) (objects st ++ [session])
          (ptys st ++ [ptyProcess]) (sockets st)
          (contextStore st) (contextRequestTimes st),
   ref).

(** [client.close()] for every client of the list that is open. *)
Fixpoint closeClients (cs : list nat) (st : server) : server :=
  match cs with
  | [] => st
  | c :: cs' => closeClients cs' (if isOpen st c then wsClose c st else st)
  end.

(** The loop of the [onExit] callback: an open client gets the message and
    is closed. *)
Fixpoint notifyExit (msg : wsMessage) (cs : list nat) (st : server) : server :=
  match cs with
  | [] => st
  | c :: cs' =>
      notifyExit msg cs' (if isOpen st c then wsClose c (wsSend c msg st) else st)
  end.

(** The [onExit] callback of the process with handle [h]. *)
Definition onExit (h : nat) (exitCode : Z) (st : server) : server :=
  match ptys st !! h with
  | Some p =>
      let cs := match objects st !! captured_session p with
                | Some s => clients s
                | None => []
                end in
      let message := MsgError ("Terminal exited with code " +:+ Num.toString exitCode) in
      with_sessions (JsMap.delete (captured_sid p)) (notifyExit message cs st)
  | None => st
  end.

(** The loop of [cleanupIdleSessions] over the entries of the map. *)
Fixpoint sweep (cfg : config) (now : Z) (entries : list (string * nat)) (st : server) : server :=
  match entries with
  | [] => st
  | (sid, ref) :: rest =>
      match objects st !! ref with
      | Some s =>
          if SESSION_TIMEOUT cfg <? now - lastSeen s then
            sweep cfg now rest (with_sessions (JsMap.delete sid) (ptyKill (pty s) st))
          else sweep cfg now rest st
      | None => sweep cfg now rest st
      end
  end.

Definition cleanupIdleSessions (cfg : config) (now : Z) (st : server) : server :=
  sweep cfg now (sessions st) st.

(** The shape of the [sessions] map in every state the server reaches: one
    entry per id, no empty id, and entries referring to distinct, allocated
    session objects. *)
Definition storeInv (st : server) : Prop :=
  NoDup (JsMap.keys (sessions st))
  /\ NoDup (List.map snd (sessions st))
  /\ (forall sid ref, In (sid, ref) (sessions st) ->
        sid <> "" /\ (ref < length (objects st))%nat).

(** ** HTTP control API *)

(** A query-string value: a string, or an array when the key is repeated. *)
Inductive qval : Type :=
  | QStr (s : string)
  | QArr (items : list string).

(** [!v] on a query value that may be [undefined]; arrays are truthy. *)
Definition qfalsy (v : option qval) : bool :=
  match v with
  | None => true
  | Some (QStr s) => Str.is_empty s
  | Some (QArr _) => false
  end.

Inductive method : Type := GET | POST | DELETE | OPTIONS | HEAD | PUT | PATCH.

Record httpRequest : Type := HttpRequest {
  req_method : method;
  req_pathname : string;               (* as sent, without the query string *)
  req_query : list (string * qval);
  req_body : json;                     (* parsed by express.json(); {} if none *)
  req_secure : bool;
  req_host : option string
}.

Record httpResponse : Type := HttpResponse {
  status : Z;
  body : json
}.

(** What a handler reads from its surroundings. *)
Record ambient : Type := Ambient {
  now : Z;                             (* Date.now() *)
  randomBytes16 : list ascii;          (* crypto.randomBytes(16) *)
  uptime : number                      (* process.uptime() *)
}.

(** A string-valued field of the request body; fields of the start request
    are read at their documented type, and a value of another JSON type is
    taken as absent.  This is what the source does with an absent field and
    with [null]; a number, a boolean, an array or an object is used by the
    source as it is, which this model does not follow, so the statements
    about the answer of the start request are made for bodies that are
    [startTyped]. *)
Definition strField (key : string) (b : json) : option string :=
  match prop key b with
  | Some (JStr s) => Some s
  | _ => None
  end.



(** The answer of [POST /api/pty/start] for a session id and its token. *)
Definition startResponse (req : httpRequest) (sid token : string) : httpResponse :=
  let wsProtocol := if req_secure req then "wss" else "ws" in
  let host := default "undefined" (req_host req) in
  let params := "sid=" +:+ URI.encodeURIComponent sid
                +:+ "&token=" +:+ URI.encodeURIComponent token in
  HttpResponse 200
    (JObj [("sid", JStr sid);
           ("url", JStr ("/terminal.html?" +:+ params));
           ("wsUrl", JStr (wsProtocol +:+ "://" +:+ host +:+ "/pty?" +:+ params))]).

(** [POST /api/pty/start] *)
Definition ptyStart (cfg : config) (env : processEnv) (amb : ambient)
    (req : httpRequest) (st : server) : server * httpResponse :=
  let requestedSid := strField "sid" (req_body req) in
  let cwd := strField "cwd" (req_body req) in
  let name := strField "name" (req_body req) in
  let session := if falsy requestedSid then None
                 else getSession st (default "" requestedSid) in
  let '(sid, st') :=
    match session with
    | None =>
        let sid := orElse requestedSid (generateSid (randomBytes16 amb)) in
        (sid, fst (createSession cfg env (now amb) sid cwd name st))
    | Some (ref, s) =>
        (default "" requestedSid, with_objects (<[ref := touch (now amb) s]>) st)
    end in
  let token := createToken cfg (now amb) sid in
  (st', startResponse req sid token).

(** [DELETE /api/pty/close] *)
Definition ptyClose (req : httpRequest) (st : server) : server * httpResponse :=
  let sid := JsMap.get "sid" (req_query req) in
  if qfalsy sid then
    (st, HttpResponse 400 (JObj [("error", JStr "sid is required")]))
  else
    match (match sid with Some (QStr s) => getSession st s | _ => None end) with
    | None => (st, HttpResponse 404 (JObj [("error", JStr "Session not found")]))
    | Some (ref, s) =>
        let st1 := closeClients (clients s) st in
        let st2 := ptyKill (pty s) st1 in
        let st3 := with_sessions
                     (JsMap.delete (match sid with Some (QStr k) => k | _ => "" end)) st2 in
        (st3, HttpResponse 200 (JObj [("success", JBool true)]))
    end.

Definition viewportOf (v : option json) : option viewportRect :=
  if isObject v then
    match isFinite (v ≫= prop "x"), isFinite (v ≫= prop "y"),
          isFinite (v ≫= prop "width"), isFinite (v ≫= prop "height") with
    | Some x, Some y, Some w, Some h => Some (Viewport x y w h)
    | _, _, _, _ => None
    end
  else None.

(** [POST /api/context/:embedId] *)
Definition contextPush (amb : ambient) (embedId : string) (req : httpRequest)
    (st : server) : server * httpResponse :=
  match isArray (prop "docs" (req_body req)) with
  | None => (st, HttpResponse 400 (JObj [("error", JStr "docs must be an array")]))
  | Some docs =>
      let viewportData := viewportOf (prop "viewport" (req_body req)) in
      (with_contextStore (JsMap.set embedId (ContextRecord docs viewportData (now amb))) st,
       HttpResponse 200
         (JObj [("ok", JBool true); ("count", JNum (numOfZ (Z.of_nat (length docs))))]))
  end.

(** An entry is live at [now] when it is younger than the TTL. *)
Definition live (now : Z) (e : string * Z) : bool :=
  now - snd e <? CONTEXT_REQUEST_TTL_MS.

(** The loop of [GET /api/context/requests] over the entries of the map. *)
Fixpoint scanRequests (now : Z) (entries : list (string * Z))
    (embedIds : list string) (times : list (string * Z)) : list string * list (string * Z) :=
  match entries with
  | [] => (embedIds, times)
  | (id, at_) :: rest =>
      if now - at_ <? CONTEXT_REQUEST_TTL_MS then scanRequests now rest (embedIds ++ [id]) times
      else scanRequests now rest embedIds (JsMap.delete id times)
  end.

(** [listPendingRequests(now)]: the ids returned and the map left behind. *)
Definition listPendingRequests (now : Z) (times : list (string * Z))
  : list string * list (string * Z) :=
  scanRequests now times [] times.

(** [GET /api/context/requests] *)
Definition contextRequests (amb : ambient) (st : server) : server * httpResponse :=
  let '(embedIds, times) := listPendingRequests (now amb) (contextRequestTimes st) in
  (with_contextRequestTimes (fun _ => times) st,
   HttpResponse 200 (JObj [("embedIds", JArr (List.map JStr embedIds))])).

Definition viewportJson (v : option viewportRect) : json :=
  match v with
  | Some r => JObj [("x", JNum (vx r)); ("y", JNum (vy r));
                    ("width", JNum (vwidth r)); ("height", JNum (vheight r))]
  | None => JNull
  end.

Definition contextJson (ctx : contextRecord) : json :=
  JObj [("docs", JArr (docs ctx)); ("viewport", viewportJson (viewport ctx));
        ("updatedAt", JNum (numOfZ (updatedAt ctx)))].

(** [GET /api/context/:embedId] *)
Definition contextPull (embedId : string) (st : server) : server * httpResponse :=
  match JsMap.get embedId (contextStore st) with
  | None =>
      (st, HttpResponse 200
             (JObj [("docs", JArr []); ("viewport", JNull); ("updatedAt", JNull)]))
  | Some ctx => (st, HttpResponse 200 (contextJson ctx))
  end.

(** [POST /api/context/:embedId/request] *)
Definition contextRequest (amb : ambient) (embedId : string) (st : server)
  : server * httpResponse :=
  (with_contextRequestTimes (JsMap.set embedId (now amb)) st,
   HttpResponse 200 (JObj [("ok", JBool true)])).

(** [GET /health] *)
Definition health (amb : ambient) (st : server) : server * httpResponse :=
  (st, HttpResponse 200
         (JObj [("status", JStr "ok");
                ("sessions", JNum (numOfZ (Z.of_nat (JsMap.size (sessions st)))));
                ("uptime", JNum (uptime amb))])).

(** ** Routing

    Express keeps the routes in registration order and gives a request to the
    first one whose path pattern matches the request path and that handles
    the request method.  A pattern is matched against the path as the client
    sent it: a literal segment matches its own spelling in either letter case,
    [:name] matches any non-empty segment, and one trailing slash is allowed.
    The text captured by [:name] is then passed through [decodeURIComponent];
    when that fails no route is taken and the answer is 400.  The static-file
    middleware in front of the routes is not modelled. *)

Inductive handlerId : Type :=
  | PtyStart | PtyClose | ContextPush | ContextRequests
  | ContextPull | ContextRequest | Health.

(** The routes, in the order of the [app.post / app.delete / app.get] calls. *)
Definition routes : list (method * string * handlerId) :=
  [ (POST, "/api/pty/start", PtyStart);
    (DELETE, "/api/pty/close", PtyClose);
    (POST, "/api/context/:embedId", ContextPush);
    (GET, "/api/context/requests", ContextRequests);
    (GET, "/api/context/:embedId", ContextPull);
    (POST, "/api/context/:embedId/request", ContextRequest);
    (GET, "/health", Health) ].

Inductive layerMatch : Type :=
  | NoMatch
  | Matched (params : list (string * string))
  | DecodeFailed.

(** Segments of a pattern against segments of a path. *)
Fixpoint matchSegments (pat path : list string) : layerMatch :=
  match pat, path with
  | [], [] => Matched []
  | [], [last] => if Str.is_empty last then Matched [] else NoMatch
  | p :: pat', s :: path' =>
      match p with
      | String ":" name =>
          if Str.is_empty s then NoMatch
          else
            match matchSegments pat' path' with
            | Matched params =>
                match URI.decodeURIComponent s with
                | Return v => Matched ((name, v) :: params)
                | Throw _ => DecodeFailed
                end
            | other => other
            end
      | _ =>
          if bool_decide (Str.toLowerCase p = Str.toLowerCase s)
          then matchSegments pat' path' else NoMatch
      end
  | _, _ => NoMatch
  end.

Definition matchLayer (pattern pathname : string) : layerMatch :=
  matchSegments (Str.split "/" pattern) (Str.split "/" pathname).

(** A route registered for GET also answers HEAD. *)
Definition handlesMethod (route request : method) : bool :=
  match route, request with
  | GET, GET | GET, HEAD | POST, POST | DELETE, DELETE => true
  | _, _ => false
  end.

Inductive routed : Type :=
  | Routed (h : handlerId) (params : list (string * string))
  | BadRequest
  | NotFound.

(** The router's scan; once a decoding error is pending no route is taken. *)
Fixpoint dispatch (rs : list (method * string * handlerId)) (m : method)
    (pathname : string) (layerError : bool) : routed :=
  match rs with
  | [] => if layerError then BadRequest else NotFound
  | (rm, pattern, h) :: rest =>
      match matchLayer pattern pathname with
      | NoMatch => dispatch rest m pathname layerError
      | DecodeFailed => dispatch rest m pathname true
      | Matched params =>
          if layerError then dispatch rest m pathname layerError
          else if handlesMethod rm m then Routed h params
          else dispatch rest m pathname layerError
      end
  end.

Definition param (key : string) (params : list (string * string)) : string :=
  default "" (JsMap.get key params).

(** The application: the CORS middleware answers OPTIONS itself, every other
    request goes through the router. *)
Definition handle (cfg : config) (env : processEnv) (amb : ambient)
    (req : httpRequest) (st : server) : server * httpResponse :=
  match req_method req with
  | OPTIONS => (st, HttpResponse 200 (JStr "OK"))
  | _ =>
      match dispatch routes (req_method req) (req_pathname req) false with
      | Routed PtyStart _ => ptyStart cfg env amb req st
      | Routed PtyClose _ => ptyClose req st
      | Routed ContextPush ps => contextPush amb (param "embedId" ps) req st
      | Routed ContextRequests _ => contextRequests amb st
      | Routed ContextPull ps => contextPull (param "embedId" ps) st
      | Routed ContextRequest ps => contextRequest amb (param "embedId" ps) st
      | Routed Health _ => health amb st
      | BadRequest => (st, HttpResponse 400 (JStr "Bad Request"))
      | NotFound => (st, HttpResponse 404 (JStr "Not Found"))
      end
  end.

(** ** WebSocket gateway *)

Record upgradeRequest : Type := UpgradeRequest {
  up_pathname : string;
  up_query : list (string * qval);
  up_handshake : bool                  (* the headers form a valid WebSocket handshake *)
}.

Inductive upgradeOutcome : Type :=
  | SocketDestroyed                    (* not the /pty path *)
  | Rejected (code : Z)                (* status line written, socket destroyed *)
  | Thrown (e : jsError)               (* an exception left the handler *)
  | HandshakeAborted                   (* handleUpgrade refused the handshake *)
  | Connection (ws : nat) (attached : bool).  (* the 'connection' handler ran on socket ws *)

(** [`${sid}`] for a query value: an array prints its items joined by commas. *)
Definition qstring (v : qval) : string :=
  match v with
  | QStr s => s
  | QArr items => Str.join "," items
  end.

(** [verifyToken] on query values: an array is truthy, is printed with its
    items joined by commas, and has no [split] method. *)
Definition verifyTokenQ (cfg : config) (now : Z) (sid token : qval) : outcome bool :=
  match token, sid with
  | QStr t, QStr s => verifyToken cfg now s t
  | QStr t, QArr _ =>
      if Str.is_empty t then Return false else checkSignature cfg now (qstring sid) t
  | QArr _, QStr s =>
      if Str.is_empty s then Return false
      else Throw (TypeError "token.split is not a function")
  | QArr _, QArr _ => Throw (TypeError "token.split is not a function")
  end.

(** [wss.on('connection', (ws, request, sid) => ...)], up to the registration
    of the socket's own listeners.  The result tells whether [ws] was attached. *)
Definition onConnection (now : Z) (ws : nat) (sid : qval) (st : server) : server * bool :=
  match (match sid with QStr s => getSession st s | QArr _ => None end) with
  | None => (wsClose ws (wsSend ws (MsgError "Session not found") st), false)
  | Some (ref, s) =>
      (wsSend ws MsgConnected
         (with_objects (<[ref := Session (pty s) (clients s ++ [ws]) now (name s)]>) st),
       true)
  end.

(** [server.on('upgrade', ...)] *)
Definition onUpgrade (cfg : config) (now : Z) (req : upgradeRequest) (st : server)
  : server * upgradeOutcome :=
  if bool_decide (up_pathname req = "/pty") then
    let sid := JsMap.get "sid" (up_query req) in
    let token := JsMap.get "token" (up_query req) in
    match sid, token with
    | Some sidv, Some tokenv =>
        if qfalsy sid || qfalsy token then (st, Rejected 401)
        else
          match verifyTokenQ cfg now sidv tokenv with
          | Throw e => (st, Thrown e)
          | Return false => (st, Rejected 403)
          | Return true =>
              if up_handshake req then
                let ws := length (sockets st) in
                let st1 := with_sockets (fun l => l ++ [WebSocket OPEN []]) st in
                let '(st2, attached) := onConnection now ws sidv st1 in
                (st2, Connection ws attached)
              else (st, HandshakeAborted)
          end
    | _, _ => (st, Rejected 401)
    end
  else (st, SocketDestroyed).

(** ** Callbacks of a session: process output, client messages, disconnects *)

(** [session.clients.forEach(client => { if (client.readyState === 1)
    client.send(message) })] *)
Fixpoint broadcast (msg : wsMessage) (cs : list nat) (st : server) : server :=
  match cs with
  | [] => st
  | c :: cs' => broadcast msg cs' (if isOpen st c then wsSend c msg st else st)
  end.

(** The [onData] callback of the process with handle [h]. *)
Definition onData (h : nat) (now : Z) (data : string) (st : server) : server :=
  match ptys st !! h with
  | Some p =>
      match objects st !! captured_session p with
      | Some s =>
          broadcast (MsgData data) (clients s)
            (with_objects (<[captured_session p := touch now s]>) st)
      | None => st
      end
  | None => st
  end.

(** A call made on the process of a session. *)
Inductive ptyCall : Type :=
  | PtyWrite (h : nat) (data : string)
  | PtyResize (h : nat) (cols rows : number).

(** The ['message'] listener of a socket attached to the session object
    [ref].  [parsed] is the result of [JSON.parse(message.toString())], [None]
    when it throws; every exception is caught by the listener.  The result
    carries the call made on the process, if any. *)
Definition onMessage (ref : nat) (now : Z) (parsed : option json) (st : server)
  : server * option ptyCall :=
  match parsed, objects st !! ref with
  | Some msg, Some s =>
      let st' := with_objects (<[ref := touch now s]>) st in
      match prop "type" msg with
      | Some (JStr t) =>
          if bool_decide (t = "input") then
            match prop "data" msg with
            | Some (JStr data) => (st', Some (PtyWrite (pty s) data))
            | _ => (st', None)
            end
          else if bool_decide (t = "resize") then
            match prop "cols" msg, prop "rows" msg with
            | Some (JNum c), Some (JNum r) => (st', Some (PtyResize (pty s) c r))
            | _, _ => (st', None)
            end
          else (st', None)
      | _ => (st', None)
      end
  | _, _ => (st, None)
  end.

(** [clients.indexOf(ws)] followed by [clients.splice(index, 1)]: the first
    occurrence is removed. *)
Fixpoint removeFirst (ws : nat) (cs : list nat) : list nat :=
  match cs with
  | [] => []
  | c :: cs' => if Nat.eqb c ws then cs' else c :: removeFirst ws cs'
  end.

Definition CLOSED : Z := 3.

(** The ['close'] listener of the socket [ws] attached to the session object
    [ref]; the socket has reached its final state when the event fires. *)
Definition onSocketClose (ref ws : nat) (st : server) : server :=
  let st1 := with_sockets (alter (fun w => WebSocket CLOSED (sent w)) ws) st in
  match objects st1 !! ref with
  | Some s =>
      with_objects (<[ref := Session (pty s) (removeFirst ws (clients s))
                               (lastSeen s) (name s)]>) st1
  | None => st1
  end.

(** The loop of the SIGTERM handler over the entries of the map. *)
Fixpoint killAll (entries : list (string * nat)) (st : server) : server :=
  match entries with
  | [] => st
  | (_, ref) :: rest =>
      match objects st !! ref with
      | Some s => killAll rest (ptyKill (pty s) st)
      | None => killAll rest st
      end
  end.

(** [process.on('SIGTERM', ...)], up to [server.close]. *)
Definition onSigterm (st : server) : server :=
  with_sessions (fun _ => []) (killAll (sessions st) st).

(** ** CORS middleware *)

(** [s.includes(p)] *)
Fixpoint includes (s p : string) : bool :=
  Str.startsWith s p
  || match s with
     | EmptyString => false
     | String _ s' => includes s' p
     end.

(** The headers the middleware sets for a request with the given [Origin]. *)
Definition corsHeaders (origin : option string) : list (string * string) :=
  (if negb (falsy origin)
      && (includes (default "" origin) "miro.com"
          || includes (default "" origin) "localhost"
          || includes (default "" origin) "127.0.0.1")
   then [("Access-Control-Allow-Origin", default "" origin)] else [])
  ++ [("Access-Control-Allow-Methods", "GET, POST, DELETE, OPTIONS");
      ("Access-Control-Allow-Headers", "Content-Type")].

(** ** Start-up *)

(** [SIGN_SECRET] as computed from the environment; [None] is [null]. *)
Definition signSecret (env_SIGN_SECRET : option string) (production : bool) : option string :=
  if falsy env_SIGN_SECRET then
    if production then None else Some "dev-secret-change-in-production"
  else env_SIGN_SECRET.

(** The start-up check: [false] when the process exits with status 1. *)
Definition startsUp (env_SIGN_SECRET : option string) (production : bool) : bool :=
  negb (falsy (signSecret env_SIGN_SECRET production) && production).

(** ** The panel's calls (terminal-embed module) *)


(** ** A development configuration

    The defaults of the source ([dev-secret-change-in-production], one hour of
    idle time, fifteen minutes of token life, the home directory as allowed
    root) on a POSIX host, used by the worked examples below. *)

Definition devConfig : config :=
  Config "dev-secret-change-in-production" 3600000 900000 "/home/user".

Definition devEnv : processEnv :=
  ProcessEnv false (Some "/home/user") None (Some "/bin/bash") None "/home/user" "/srv/app".

(** A session started for the id board-1 at time 1000, and the same state
    after a client attached at time 2000 with the token of the start
    response. *)
Definition scenarioStarted : server :=
  fst (ptyStart devConfig devEnv (Ambient 1000 (repeat "001"%char 16) (Finite 1))
         (HttpRequest POST "/api/pty/start" [] (JObj [("sid", JStr "board-1")])
            false (Some "localhost:3001"))
         emptyServer).

Definition scenarioAttached : server :=
  fst (onUpgrade devConfig 2000
         (UpgradeRequest "/pty"
            [("sid", QStr "board-1"); ("token", QStr (createToken devConfig 1000 "board-1"))]
            true)
         scenarioStarted).

Example sha256_abc :
  Buffer.toHex (Crypto.sha256 (Str.bytes "abc"))
  = "ba7816bf8f01cfea414140de5dae2223b00361a396177a9cb410ff61f20015ad".
Proof. vm_compute. reflexivity. Qed.

(** ** Predicates used in the statements *)

Definition is_lower_hex (c : ascii) : bool :=
  Chr.is_digit c || ((97 <=? Chr.code c) && (Chr.code c <=? 102)).

(** A path segment that is neither empty nor a dot segment. *)
Definition plainSegment (s : string) : Prop :=
  s <> "" /\ s <> "." /\ s <> "..".

(** Number of [kill()] calls received by the process with handle [h]. *)
Definition killsOf (st : server) (h : nat) : nat :=
  match ptys st !! h with
  | Some p => kills p
  | None => 0%nat
  end.

(** Every session object refers to a process of the table, and the callbacks
    of that process captured this very object. *)
Definition ptyInv (st : server) : Prop :=
  forall ref s, objects st !! ref = Some s ->
    exists p, ptys st !! pty s = Some p /\ captured_session p = ref.

(** [st'] has the session objects of [st], each with the process handle it
    had, and the processes of [st], each with the session object it
    captured. *)
Definition sameShape (st st' : server) : Prop :=
  (forall ref, option_map pty (objects st' !! ref) = option_map pty (objects st !! ref))
  /\ (forall h, option_map captured_session (ptys st' !! h)
                = option_map captured_session (ptys st !! h)).

(** The test of the sweep on an entry of the [sessions] map. *)
Definition idle (cfg : config) (now : Z) (st : server) (e : string * nat) : bool :=
  match objects st !! snd e with
  | Some s => SESSION_TIMEOUT cfg <? now - lastSeen s
  | None => false
  end.

(** ** The event loop

    Node runs one callback at a time; a run of the server is a sequence of
    events, each handled to completion in the state left by the previous
    one. *)
Inductive event : Type :=
  | Http (req : httpRequest)
  | Upgrade (req : upgradeRequest)
  | SweepTick
  | PtyData (h : nat) (data : string)
  | PtyExit (h : nat) (exitCode : Z)
  | SocketMessage (ref : nat) (parsed : option json)
  | SocketClose (ref ws : nat)
  | Sigterm.

Definition step (cfg : config) (env : processEnv) (amb : ambient) (ev : event)
    (st : server) : server :=
  match ev with
  | Http req => fst (handle cfg env amb req st)
  | Upgrade req => fst (onUpgrade cfg (now amb) req st)
  | SweepTick => cleanupIdleSessions cfg (now amb) st
  | PtyData h data => onData h (now amb) data st
  | PtyExit h exitCode => onExit h exitCode st
  | SocketMessage ref parsed => fst (onMessage ref (now amb) parsed st)
  | SocketClose ref ws => onSocketClose ref ws st
  | Sigterm => onSigterm st
  end.

Fixpoint run (cfg : config) (env : processEnv) (evs : list (ambient * event))
    (st : server) : server :=
  match evs with
  | [] => st
  | (amb, ev) :: rest => run cfg env rest (step cfg env amb ev st)
  end.


(** ** Proof steps shared by the case analyses of the message handler *)

Ltac no_call :=
  cbn [fst snd]; (split; [reflexivity|]); split;
  (intros; split;
   [ let Hc := fresh in intros Hc; first [discriminate Hc | inversion Hc; subst; now repeat split]
   | let Hc := fresh in intros Hc; decompose [and] Hc; subst; congruence ]).

(** * Properties *)

(** ** Characters *)

Lemma code_range (c : ascii) : 0 <= Chr.code c < 256.
Proof.
  unfold Chr.code. pose proof (N_ascii_bounded c). lia.
Qed.

Lemma code_of_code (z : Z) : 0 <= z < 256 -> Chr.code (Chr.of_code z) = z.
Proof.
  intros Hz. unfold Chr.code, Chr.of_code.
  rewrite N_ascii_embedding by lia. lia.
Qed.

Lemma of_code_code (c : ascii) : Chr.of_code (Chr.code c) = c.
Proof.
  unfold Chr.code, Chr.of_code. rewrite N2Z.id. apply ascii_N_embedding.
Qed.

Lemma chr_eqb_eq (a b : ascii) : Chr.eqb a b = true <-> a = b.
Proof. apply Ascii.eqb_eq. Qed.

Lemma chr_eqb_code (a b : ascii) : Chr.eqb a b = (Chr.code a =? Chr.code b).
Proof.
  destruct (Chr.eqb a b) eqn:E.
  - apply chr_eqb_eq in E. subst. symmetry. apply Z.eqb_refl.
  - symmetry. apply Z.eqb_neq. intros H.
    assert (a = b) as ->.
    { rewrite <- (of_code_code a), <- (of_code_code b). now rewrite H. }
    unfold Chr.eqb in E. rewrite Ascii.eqb_refl in E. discriminate.
Qed.

(** ** Strings *)

Lemma append_empty_r (s : string) : s +:+ "" = s.
Proof. induction s as [|c s IH]; simpl; [reflexivity | now rewrite IH]. Qed.

Lemma append_assoc (a b c : string) : (a +:+ b) +:+ c = a +:+ (b +:+ c).
Proof. induction a as [|x a IH]; simpl; [reflexivity | now rewrite IH]. Qed.

Lemma length_append (a b : string) :
  String.length (a +:+ b) = (String.length a + String.length b)%nat.
Proof. induction a as [|x a IH]; simpl; [reflexivity | now rewrite IH]. Qed.

Lemma append_cancel_r (a b c : string) : a +:+ c = b +:+ c -> a = b.
Proof.
  revert b. induction a as [|x a IH]; intros [|y b] H; simpl in H.
  - reflexivity.
  - exfalso. apply (f_equal String.length) in H.
    simpl in H. rewrite length_append in H. lia.
  - exfalso. apply (f_equal String.length) in H.
    simpl in H. rewrite length_append in H. lia.
  - injection H as -> H. f_equal. now apply IH.
Qed.

Lemma all_append (p : ascii -> bool) (a b : string) :
  Str.all p (a +:+ b) = Str.all p a && Str.all p b.
Proof.
  induction a as [|x a IH]; simpl; [reflexivity|].
  rewrite IH. now rewrite andb_assoc.
Qed.

Lemma all_impl (p q : ascii -> bool) (s : string) :
  (forall c, p c = true -> q c = true) -> Str.all p s = true -> Str.all q s = true.
Proof.
  intros Hpq. induction s as [|c s IH]; simpl; [reflexivity|].
  intros [Hc Hs]%andb_true_iff. rewrite (Hpq _ Hc). now apply IH.
Qed.

Lemma split_without (sep : ascii) (s : string) :
  Str.all (differs sep) s = true -> Str.split sep s = [s].
Proof.
  induction s as [|c s IH]; simpl; [reflexivity|].
  intros [Hc Hs]%andb_true_iff. unfold differs in Hc.
  apply negb_true_iff in Hc. rewrite Hc. now rewrite (IH Hs).
Qed.

Lemma split_append (sep : ascii) (a b : string) :
  Str.all (differs sep) a = true ->
  Str.split sep (a +:+ String sep b) = a :: Str.split sep b.
Proof.
  induction a as [|c a IH]; simpl.
  - intros _. unfold Chr.eqb. now rewrite Ascii.eqb_refl.
  - intros [Hc Ha]%andb_true_iff. unfold differs in Hc.
    apply negb_true_iff in Hc. rewrite Hc. now rewrite (IH Ha).
Qed.

Lemma startsWith_append (p s : string) : Str.startsWith (p +:+ s) p = true.
Proof.
  induction p as [|c p IH]; simpl; [reflexivity|].
  unfold Chr.eqb. now rewrite Ascii.eqb_refl.
Qed.

Lemma startsWith_inv (s p : string) :
  Str.startsWith s p = true -> exists r, s = p +:+ r.
Proof.
  revert s. induction p as [|c p IH]; intros s H; simpl in *.
  - now exists s.
  - destruct s as [|a s]; [discriminate|].
    apply andb_true_iff in H as [Hc Hs]. apply chr_eqb_eq in Hc. subst a.
    destruct (IH _ Hs) as [r ->]. now exists r.
Qed.

(** ** Decimal printing and [parseInt] *)

Lemma digit_char_code (d : Z) : 0 <= d < 10 -> Chr.code (Num.digit_char d) = 48 + d.
Proof. intros Hd. unfold Num.digit_char. apply code_of_code. lia. Qed.

Lemma digit_char_is_digit (n : Z) : Chr.is_digit (Num.digit_char (n mod 10)) = true.
Proof.
  pose proof (Z.mod_pos_bound n 10 ltac:(lia)) as Hm.
  unfold Chr.is_digit. rewrite digit_char_code by lia. lia.
Qed.

Lemma digit_char_value (n : Z) : Chr.digit_value (Num.digit_char (n mod 10)) = n mod 10.
Proof.
  pose proof (Z.mod_pos_bound n 10 ltac:(lia)) as Hm.
  unfold Chr.digit_value. rewrite digit_char_code by lia. lia.
Qed.

Lemma digits_all_digit (fuel : nat) (n : Z) (acc : string) :
  Str.all Chr.is_digit acc = true -> Str.all Chr.is_digit (Num.digits fuel n acc) = true.
Proof.
  revert n acc. induction fuel as [|fuel IH]; intros n acc Hacc; simpl.
  - now rewrite digit_char_is_digit.
  - destruct (n / 10 =? 0).
    + simpl. now rewrite digit_char_is_digit.
    + apply IH. simpl. now rewrite digit_char_is_digit.
Qed.

Lemma digits_parse (fuel : nat) :
  forall n acc, 0 <= n < 2 ^ (Z.of_nat fuel + 1) ->
  exists k, 0 <= k /\
    forall a, Num.parse_digits a (Num.digits fuel n acc)
              = Num.parse_digits (a * 10 ^ k + n) acc.
Proof.
  induction fuel as [|fuel IH]; intros n acc Hn.
  - exists 1. split; [lia|]. intros b. simpl.
    rewrite digit_char_is_digit, digit_char_value.
    change (2 ^ (Z.of_nat 0 + 1)) with 2 in Hn.
    f_equal. rewrite Z.mod_small by lia. lia.
  - simpl Num.digits. destruct (n / 10 =? 0) eqn:E.
    + exists 1. split; [lia|]. intros b. simpl.
      rewrite digit_char_is_digit, digit_char_value.
      apply Z.eqb_eq in E. f_equal.
      pose proof (Z.div_mod n 10 ltac:(lia)). lia.
    + assert (Hq : 0 <= n / 10 < 2 ^ (Z.of_nat fuel + 1)).
      { split; [apply Z.div_pos; lia|].
        apply Z.div_lt_upper_bound; [lia|].
        replace (Z.of_nat (S fuel) + 1) with (Z.succ (Z.of_nat fuel + 1)) in Hn by lia.
        rewrite Z.pow_succ_r in Hn by lia. lia. }
      destruct (IH (n / 10) (String (Num.digit_char (n mod 10)) acc) Hq)
        as (k & Hk & H).
      exists (k + 1). split; [lia|]. intros b. rewrite H. simpl.
      rewrite digit_char_is_digit, digit_char_value. f_equal.
      rewrite Z.pow_add_r by lia.
      pose proof (Z.div_mod n 10 ltac:(lia)). lia.
Qed.

Lemma digits_nonempty (fuel : nat) (n : Z) (acc : string) :
  Str.is_empty (Num.digits fuel n acc) = false.
Proof.
  revert n acc. induction fuel as [|fuel IH]; intros n acc; simpl.
  - reflexivity.
  - destruct (n / 10 =? 0); [reflexivity | apply IH].
Qed.

Lemma decimal_all_digit (n : Z) : Str.all Chr.is_digit (Num.decimal n) = true.
Proof. unfold Num.decimal. now apply digits_all_digit. Qed.

Lemma decimal_head (n : Z) :
  exists c r, Num.decimal n = String c r /\ Chr.is_digit c = true.
Proof.
  pose proof (decimal_all_digit n) as Hall.
  pose proof (digits_nonempty (Z.to_nat (Z.log2 n)) n "") as Hne.
  fold (Num.decimal n) in Hne.
  destruct (Num.decimal n) as [|c r]; [discriminate|].
  simpl in Hall. apply andb_true_iff in Hall as [Hc _]. eauto.
Qed.

Lemma parse_decimal (n : Z) : 0 <= n -> Num.parse_digits 0 (Num.decimal n) = n.
Proof.
  intros Hn. unfold Num.decimal.
  destruct (digits_parse (Z.to_nat (Z.log2 n)) n "") as (k & _ & H).
  - split; [assumption|].
    destruct (Z.eq_dec n 0) as [-> | Hnz]; [reflexivity|].
    rewrite Z2Nat.id by apply Z.log2_nonneg.
    replace (Z.log2 n + 1) with (Z.succ (Z.log2 n)) by lia.
    apply Z.log2_spec. lia.
  - rewrite H. simpl. lia.
Qed.

(** [skip_ws] stops at once on a printable ASCII character. *)
Lemma skip_ws_printable (fuel : nat) (c : ascii) (r : string) :
  33 <= Chr.code c < 128 -> Num.skip_ws fuel (String c r) = String c r.
Proof.
  intros Hc. destruct fuel as [|fuel]; [reflexivity|]. simpl.
  replace ((9 <=? Chr.code c) && (Chr.code c <=? 13) || (Chr.code c =? 32)) with false by lia.
  destruct r as [|b r2]; [reflexivity|].
  replace (Chr.code c =? 194) with false by lia. simpl.
  destruct r2 as [|d r3]; [reflexivity|].
  replace (Chr.code c =? 225) with false by lia.
  replace (Chr.code c =? 226) with false by lia.
  replace (Chr.code c =? 227) with false by lia.
  replace (Chr.code c =? 239) with false by lia.
  reflexivity.
Qed.

Lemma is_digit_code (c : ascii) : Chr.is_digit c = true -> 48 <= Chr.code c <= 57.
Proof. unfold Chr.is_digit. lia. Qed.

Lemma parseInt_decimal (n : Z) : 0 <= n -> Num.parseInt (Num.decimal n) = Some n.
Proof.
  intros Hn. destruct (decimal_head n) as (c & r & E & Hc).
  pose proof (parse_decimal n Hn) as Hp.
  unfold Num.parseInt. rewrite E in *.
  pose proof (is_digit_code c Hc) as Hcode.
  rewrite skip_ws_printable by lia.
  rewrite !chr_eqb_code.
  change (Chr.code "-") with 45. change (Chr.code "+") with 43.
  replace (Chr.code c =? 45) with false by lia.
  replace (Chr.code c =? 43) with false by lia.
  unfold Num.starts_with_digit. rewrite Hc, Hp. f_equal. lia.
Qed.

(** [parseInt] reads back what [toString] prints. *)
Lemma parseInt_toString (n : Z) : Num.parseInt (Num.toString n) = Some n.
Proof.
  unfold Num.toString. destruct (n <? 0) eqn:E.
  - apply Z.ltb_lt in E.
    destruct (decimal_head (- n)) as (c & r & Ed & Hc).
    pose proof (parse_decimal (- n) ltac:(lia)) as Hp.
    unfold Num.parseInt.
    rewrite skip_ws_printable by (change (Chr.code "-") with 45; lia).
    rewrite chr_eqb_code, Z.eqb_refl.
    rewrite Ed in *. unfold Num.starts_with_digit. rewrite Hc, Hp. f_equal. lia.
  - apply parseInt_decimal. lia.
Qed.

Lemma toString_nonempty (n : Z) : Str.is_empty (Num.toString n) = false.
Proof.
  unfold Num.toString. destruct (n <? 0); [reflexivity|].
  apply digits_nonempty.
Qed.

Lemma toString_no_dot (n : Z) : Str.all (differs ".") (Num.toString n) = true.
Proof.
  assert (Hd : forall c, Chr.is_digit c = true -> differs "." c = true).
  { intros c Hc%is_digit_code. unfold differs. rewrite chr_eqb_code.
    change (Chr.code ".") with 46. lia. }
  unfold Num.toString. destruct (n <? 0).
  - simpl. apply (all_impl _ _ _ Hd), decimal_all_digit.
  - apply (all_impl _ _ _ Hd), decimal_all_digit.
Qed.

(** ** Hexadecimal encoding *)

Lemma hexdigit_code (n : Z) :
  0 <= n < 16 ->
  Chr.code (Chr.hexdigit n) = if n <? 10 then 48 + n else 87 + n.
Proof.
  intros Hn. unfold Chr.hexdigit.
  destruct (n <? 10) eqn:E; apply code_of_code; lia.
Qed.

Lemma unhex_hexdigit (n : Z) : 0 <= n < 16 -> Chr.unhex (Chr.hexdigit n) = Some n.
Proof.
  intros Hn. unfold Chr.unhex. rewrite hexdigit_code by assumption.
  destruct (n <? 10) eqn:E.
  - replace ((48 <=? 48 + n) && (48 + n <=? 57)) with true by lia. f_equal. lia.
  - replace ((48 <=? 87 + n) && (87 + n <=? 57)) with false by lia.
    replace ((97 <=? 87 + n) && (87 + n <=? 102)) with true by lia. f_equal. lia.
Qed.

Lemma hexdigit_no_dot (n : Z) : 0 <= n < 16 -> differs "." (Chr.hexdigit n) = true.
Proof.
  intros Hn. unfold differs. rewrite chr_eqb_code, hexdigit_code by assumption.
  change (Chr.code ".") with 46. destruct (n <? 10) eqn:E; lia.
Qed.

Lemma nibbles (c : ascii) :
  0 <= Chr.code c / 16 < 16 /\ 0 <= Chr.code c mod 16 < 16.
Proof.
  pose proof (code_range c) as Hc. split.
  - split; [apply Z.div_pos; lia | apply Z.div_lt_upper_bound; lia].
  - apply Z.mod_pos_bound. lia.
Qed.

Lemma toHex_no_dot (b : list ascii) : Str.all (differs ".") (Buffer.toHex b) = true.
Proof.
  induction b as [|c b IH]; simpl; [reflexivity|].
  destruct (nibbles c) as [Hh Hl].
  now rewrite !hexdigit_no_dot, IH.
Qed.

(** Decoding undoes encoding. *)
Lemma fromHex_toHex (b : list ascii) : Buffer.fromHex (Buffer.toHex b) = b.
Proof.
  induction b as [|c b IH]; simpl; [reflexivity|].
  destruct (nibbles c) as [Hh Hl].
  rewrite !unhex_hexdigit by assumption. rewrite IH. f_equal.
  rewrite <- Z.div_mod by lia. apply of_code_code.
Qed.

Lemma toHex_length (b : list ascii) :
  String.length (Buffer.toHex b) = (2 * length b)%nat.
Proof. induction b as [|c b IH]; simpl; [reflexivity | rewrite IH; lia]. Qed.

(** ** HMAC-SHA256 *)

Lemma sha256_length (msg : list ascii) : length (Crypto.sha256 msg) = 32%nat.
Proof. unfold Crypto.sha256. now rewrite !length_app. Qed.

Lemma hmac_sha256_length (key msg : list ascii) :
  length (Crypto.hmac_sha256 key msg) = 32%nat.
Proof. unfold Crypto.hmac_sha256. apply sha256_length. Qed.

Lemma timingSafeEqual_same (a : list ascii) : timingSafeEqual a a = Return true.
Proof.
  unfold timingSafeEqual, Buffer.eqb. rewrite Nat.eqb_refl.
  now rewrite bool_decide_eq_true_2.
Qed.

Lemma timingSafeEqual_digests (a b : list ascii) :
  length a = length b -> timingSafeEqual a b = Return (bool_decide (a = b)).
Proof.
  intros H. unfold timingSafeEqual, Buffer.eqb. rewrite H, Nat.eqb_refl. reflexivity.
Qed.

(** ** Token codec *)

Lemma createToken_split (cfg : config) (T : Z) (sid : string) :
  Str.split "." (createToken cfg T sid)
  = [Num.toString (T + TOKEN_TTL cfg);
     hmacHex (SIGN_SECRET cfg) (tokenPayload sid (T + TOKEN_TTL cfg))].
Proof.
  unfold createToken. cbv zeta.
  change ("." +:+ ?x) with (String "." x).
  rewrite split_append by apply toString_no_dot.
  rewrite split_without by apply toHex_no_dot. reflexivity.
Qed.

Lemma createToken_nonempty (cfg : config) (T : Z) (sid : string) :
  Str.is_empty (createToken cfg T sid) = false.
Proof.
  unfold createToken. cbv zeta.
  pose proof (toString_nonempty (T + TOKEN_TTL cfg)) as H.
  destruct (Num.toString (T + TOKEN_TTL cfg)); [discriminate | reflexivity].
Qed.

(** What [checkSignature] computes on a token issued by [createToken] for
    [s1], when it is checked against [s2]. *)
Lemma checkSignature_createToken (cfg : config) (T now : Z) (s1 s2 : string) :
  checkSignature cfg now s2 (createToken cfg T s1)
  = if T + TOKEN_TTL cfg <? now then Return false
    else Return (bool_decide
                   (Crypto.hmac_sha256 (Str.bytes (SIGN_SECRET cfg))
                      (Str.bytes (tokenPayload s1 (T + TOKEN_TTL cfg)))
                    = Crypto.hmac_sha256 (Str.bytes (SIGN_SECRET cfg))
                        (Str.bytes (tokenPayload s2 (T + TOKEN_TTL cfg))))).
Proof.
  unfold checkSignature. rewrite createToken_split, parseInt_toString.
  destruct (T + TOKEN_TTL cfg <? now); [reflexivity|].
  unfold hmacHex. rewrite !fromHex_toHex.
  apply timingSafeEqual_digests. now rewrite !hmac_sha256_length.
Qed.

Lemma tokenPayload_inj (s1 s2 : string) (exp : Z) :
  tokenPayload s1 exp = tokenPayload s2 exp -> s1 = s2.
Proof.
  unfold tokenPayload. intros H.
  change ("pty:" +:+ ?x) with (String "p" (String "t" (String "y" (String ":" x)))) in H.
  injection H as H. now apply append_cancel_r in H.
Qed.

(** ** Tokens in URLs *)

Lemma toHex_lower_hex (b : list ascii) : Str.all is_lower_hex (Buffer.toHex b) = true.
Proof.
  assert (H : forall n, 0 <= n < 16 -> is_lower_hex (Chr.hexdigit n) = true).
  { intros n Hn. unfold is_lower_hex, Chr.is_digit. rewrite hexdigit_code by assumption.
    destruct (n <? 10) eqn:E; lia. }
  induction b as [|c b IH]; simpl; [reflexivity|].
  destruct (nibbles c) as [Hh Hl]. now rewrite !H, IH.
Qed.

Lemma encodeURIComponent_unreserved (s : string) :
  Str.all URI.unreserved s = true -> URI.encodeURIComponent s = s.
Proof.
  induction s as [|c s IH]; simpl; [reflexivity|].
  intros [Hc Hs]%andb_true_iff. now rewrite Hc, IH.
Qed.

Lemma lower_hex_unreserved (c : ascii) : is_lower_hex c = true -> URI.unreserved c = true.
Proof. unfold is_lower_hex, Chr.is_digit, URI.unreserved. lia. Qed.

Lemma toString_unreserved (n : Z) : Str.all URI.unreserved (Num.toString n) = true.
Proof.
  assert (Hd : forall c, Chr.is_digit c = true -> URI.unreserved c = true).
  { intros c. unfold Chr.is_digit, URI.unreserved. lia. }
  unfold Num.toString. destruct (n <? 0); simpl.
  - change (URI.unreserved "-") with true. simpl.
    eapply all_impl; [exact Hd | apply decimal_all_digit].
  - eapply all_impl; [exact Hd | apply decimal_all_digit].
Qed.

Lemma createToken_unreserved (cfg : config) (now : Z) (sid : string) :
  Str.all URI.unreserved (createToken cfg now sid) = true.
Proof.
  unfold createToken. rewrite !all_append. rewrite toString_unreserved.
  unfold hmacHex.
  rewrite (all_impl is_lower_hex URI.unreserved _ lower_hex_unreserved (toHex_lower_hex _)).
  reflexivity.
Qed.

Lemma encode_createToken (cfg : config) (now : Z) (sid : string) :
  URI.encodeURIComponent (createToken cfg now sid) = createToken cfg now sid.
Proof. apply encodeURIComponent_unreserved, createToken_unreserved. Qed.

(** C1 (amended).  For every non-empty session id and every TTL t > 0, with
    the issue time T, the TTL and the expiry T + t in the range of safe
    integers, the token issued at time T verifies at every time
    T <= now <= T + t, the expiry instant included, and is refused at every
    time now > T + t. *)
Theorem token_round_trip (cfg : config) (s : string) (T now : Z) :
  s <> "" ->
  0 < TOKEN_TTL cfg ->
  safeExpiry cfg T = true ->
  (T <= now <= T + TOKEN_TTL cfg ->
     verifyToken cfg now s (createToken cfg T s) = Return true)
  /\ (T + TOKEN_TTL cfg < now ->
     verifyToken cfg now s (createToken cfg T s) = Return false).
Proof.
  intros Hs _ _.
  assert (Hguard : Str.is_empty (createToken cfg T s) || Str.is_empty s = false).
  { rewrite createToken_nonempty. destruct s; [congruence | reflexivity]. }
  unfold verifyToken. rewrite Hguard, checkSignature_createToken.
  split; intros Hnow.
  - replace (T + TOKEN_TTL cfg <? now) with false by lia.
    now rewrite bool_decide_eq_true_2.
  - now replace (T + TOKEN_TTL cfg <? now) with true by lia.
Qed.

Lemma token_round_trip_witness :
  verifyToken devConfig 1700000000001 "board-1"
    (createToken devConfig 1700000000000 "board-1") = Return true.
Proof.
  apply (token_round_trip devConfig "board-1" 1700000000000 1700000000001).
  - discriminate.
  - reflexivity.
  - reflexivity.
  - simpl. lia.
Defined.

(** C1 fails as stated: at the expiry instant itself the token still
    verifies, and a token issued for the empty session id never verifies. *)
Lemma token_round_trip_counterexample :
  verifyToken devConfig (1700000000000 + 900000) "board-1"
    (createToken devConfig 1700000000000 "board-1") = Return true
  /\ verifyToken devConfig 1700000000001 ""
       (createToken devConfig 1700000000000 "") = Return false.
Proof. split; vm_compute; reflexivity. Qed.

(** C3 (code at the failing input).  A token whose expiry lies in the future
    and whose signature field decodes to fewer than 32 bytes makes
    [verifyToken] throw instead of returning false. *)
Theorem verifyToken_throws :
  verifyToken devConfig 1700000000000 "board-1" "1700000900000.abcd"
  = Throw (RangeError "Input buffers must have the same byte length").
Proof. vm_compute. reflexivity. Qed.

(** The length check of [timingSafeEqual] is the only source of exceptions:
    [verifyToken] throws exactly on a two-field token with a numeric,
    unexpired first field whose second field does not decode to 32 bytes. *)
Lemma verifyToken_throw_iff (cfg : config) (now : Z) (sid token : string) :
  (exists e, verifyToken cfg now sid token = Throw e)
  <-> sid <> "" /\
      exists expStr signature exp,
        Str.split "." token = [expStr; signature]
        /\ Num.parseInt expStr = Some exp
        /\ now <= exp
        /\ length (Buffer.fromHex signature) <> 32%nat.
Proof.
  unfold verifyToken, checkSignature. split.
  - intros [e H].
    destruct (Str.is_empty token || Str.is_empty sid) eqn:G; [discriminate|].
    apply orb_false_iff in G as [_ Gs].
    split; [intros ->; discriminate|].
    destruct (Str.split "." token) as [|expStr [|signature [|? ?]]] eqn:Hsplit;
      try discriminate.
    destruct (Num.parseInt expStr) as [exp|] eqn:Hparse; [|discriminate].
    destruct (exp <? now) eqn:E; [discriminate|].
    exists expStr, signature, exp.
    split; [reflexivity|]. split; [assumption|]. split; [lia|].
    unfold timingSafeEqual, hmacHex in H. rewrite fromHex_toHex, hmac_sha256_length in H.
    destruct (Nat.eqb_spec (length (Buffer.fromHex signature)) 32); [discriminate | assumption].
  - intros (Hs & expStr & signature & exp & Hsplit & Hparse & Hexp & Hlen).
    assert (Ht : Str.is_empty token = false).
    { destruct token; [discriminate Hsplit | reflexivity]. }
    assert (Hs' : Str.is_empty sid = false) by (destruct sid; [congruence | reflexivity]).
    rewrite Ht, Hs', Hsplit, Hparse. cbn [orb].
    replace (exp <? now) with false by lia.
    unfold timingSafeEqual, hmacHex. rewrite fromHex_toHex, hmac_sha256_length.
    destruct (Nat.eqb_spec (length (Buffer.fromHex signature)) 32); [contradiction|].
    eauto.
Qed.

(** C5.  A token issued for s1 never verifies against a different session id
    s2, at any time, provided HMAC-SHA256 does not collide on the two distinct
    payloads involved. *)
Theorem token_binding (cfg : config) (s1 s2 : string) (T now : Z) :
  s1 <> s2 ->
  (tokenPayload s1 (T + TOKEN_TTL cfg) <> tokenPayload s2 (T + TOKEN_TTL cfg) ->
   Crypto.hmac_sha256 (Str.bytes (SIGN_SECRET cfg))
     (Str.bytes (tokenPayload s1 (T + TOKEN_TTL cfg)))
   <> Crypto.hmac_sha256 (Str.bytes (SIGN_SECRET cfg))
        (Str.bytes (tokenPayload s2 (T + TOKEN_TTL cfg)))) ->
  verifyToken cfg now s2 (createToken cfg T s1) = Return false.
Proof.
  intros Hne Hmac.
  unfold verifyToken.
  destruct (Str.is_empty (createToken cfg T s1) || Str.is_empty s2); [reflexivity|].
  rewrite checkSignature_createToken.
  destruct (T + TOKEN_TTL cfg <? now); [reflexivity|].
  rewrite bool_decide_eq_false_2; [reflexivity|].
  apply Hmac. intros Heq. apply Hne. eapply tokenPayload_inj, Heq.
Qed.

Lemma token_binding_witness :
  verifyToken devConfig 1700000000001 "board-2"
    (createToken devConfig 1700000000000 "board-1") = Return false.
Proof.
  apply (token_binding devConfig "board-1" "board-2" 1700000000000 1700000000001).
  - discriminate.
  - intros _. vm_compute. discriminate.
Defined.

(** ** Working directory *)

(** C4 (code at the failing input).  With the allowed root /home/user, the
    request ../user2 resolves to the sibling directory /home/user2; the prefix
    test of [safeJoin] lets it through and [getCwd] returns it instead of the
    home directory. *)
Theorem getCwd_sibling_escapes :
  Path.resolve (process_cwd devEnv) [ALLOWED_ROOT devConfig; "../user2"] = "/home/user2"
  /\ safeJoin devEnv (ALLOWED_ROOT devConfig) "../user2" = Return "/home/user2"
  /\ getCwd devConfig devEnv (Some "../user2") = Some "/home/user2"
  /\ os_homedir devEnv = "/home/user".
Proof. repeat split; vm_compute; reflexivity. Qed.

(** What the prefix test does guarantee: a requested directory is answered
    either by a resolved path that has the resolved root as a string prefix,
    or by the home directory. *)
Lemma getCwd_requested (cfg : config) (env : processEnv) (p : string) :
  p <> "" ->
  let resolved := Path.resolve (process_cwd env) [ALLOWED_ROOT cfg; p] in
  let root := Path.resolve (process_cwd env) [ALLOWED_ROOT cfg] in
  getCwd cfg env (Some p)
  = if Str.startsWith resolved root then Some resolved else Some (os_homedir env).
Proof.
  intros Hp. unfold getCwd, safeJoin. simpl.
  destruct p as [|c p]; [congruence|]. simpl Str.is_empty. cbv iota.
  destruct (Str.startsWith _ _); reflexivity.
Qed.

(** ** JavaScript maps *)

Lemma get_set_eq {V} (k : string) (v : V) (m : list (string * V)) :
  JsMap.get k (JsMap.set k v m) = Some v.
Proof.
  induction m as [|[k' v'] m IH]; simpl.
  - now rewrite bool_decide_eq_true_2.
  - destruct (bool_decide (k' = k)) eqn:E; simpl.
    + now rewrite bool_decide_eq_true_2.
    + now rewrite E.
Qed.

Lemma get_set_ne {V} (k j : string) (v : V) (m : list (string * V)) :
  k <> j -> JsMap.get j (JsMap.set k v m) = JsMap.get j m.
Proof.
  intros Hne. induction m as [|[k' v'] m IH]; simpl.
  - now rewrite bool_decide_eq_false_2.
  - destruct (bool_decide (k' = k)) eqn:E; simpl.
    + apply bool_decide_eq_true_1 in E. subst k'.
      now rewrite !bool_decide_eq_false_2.
    + now rewrite IH.
Qed.

Lemma get_delete_eq {V} (k : string) (m : list (string * V)) :
  JsMap.get k (JsMap.delete k m) = None.
Proof.
  induction m as [|[k' v'] m IH]; simpl; [reflexivity|].
  destruct (bool_decide (k' = k)) eqn:E; simpl; [assumption|].
  now rewrite E.
Qed.

Lemma get_delete_ne {V} (k j : string) (m : list (string * V)) :
  k <> j -> JsMap.get j (JsMap.delete k m) = JsMap.get j m.
Proof.
  intros Hne. induction m as [|[k' v'] m IH]; simpl; [reflexivity|].
  destruct (bool_decide (k' = k)) eqn:E; simpl.
  - apply bool_decide_eq_true_1 in E. subst k'.
    now rewrite bool_decide_eq_false_2.
  - now rewrite IH.
Qed.

Lemma get_None_keys {V} (k : string) (m : list (string * V)) :
  JsMap.get k m = None <-> ~ In k (JsMap.keys m).
Proof.
  induction m as [|[k' v'] m IH]; simpl; [tauto|].
  destruct (bool_decide (k' = k)) eqn:E.
  - apply bool_decide_eq_true_1 in E. split; [discriminate | tauto].
  - apply bool_decide_eq_false_1 in E. rewrite IH. tauto.
Qed.

Lemma get_Some_In {V} (k : string) (v : V) (m : list (string * V)) :
  JsMap.get k m = Some v -> In (k, v) m.
Proof.
  induction m as [|[k' v'] m IH]; simpl; [discriminate|].
  destruct (bool_decide (k' = k)) eqn:E.
  - apply bool_decide_eq_true_1 in E. intros [= ->]. left. now subst.
  - intros H. right. now apply IH.
Qed.

Lemma In_get_Some {V} (k : string) (v : V) (m : list (string * V)) :
  NoDup (JsMap.keys m) -> In (k, v) m -> JsMap.get k m = Some v.
Proof.
  induction m as [|[k' v'] m IH]; simpl; [tauto|].
  intros Hnd [Hin | Hin].
  - injection Hin as -> ->. now rewrite bool_decide_eq_true_2.
  - apply NoDup_cons in Hnd as [Hk' Hnd].
    rewrite bool_decide_eq_false_2; [now apply IH|].
    intros ->. apply Hk'. apply list_elem_of_In.
    change k with (fst (k, v)). now apply in_map.
Qed.

Lemma keys_delete_subset {V} (k j : string) (m : list (string * V)) :
  In j (JsMap.keys (JsMap.delete k m)) -> In j (JsMap.keys m).
Proof.
  induction m as [|[k' v'] m IH]; simpl; [tauto|].
  destruct (bool_decide (k' = k)); simpl; tauto.
Qed.

Lemma NoDup_keys_delete {V} (k : string) (m : list (string * V)) :
  NoDup (JsMap.keys m) -> NoDup (JsMap.keys (JsMap.delete k m)).
Proof.
  induction m as [|[k' v'] m IH]; simpl; [trivial|].
  intros [Hk' Hnd]%NoDup_cons.
  destruct (bool_decide (k' = k)); simpl; [now apply IH|].
  apply NoDup_cons. split; [|now apply IH].
  rewrite list_elem_of_In. intros Hin. apply Hk', list_elem_of_In.
  eapply keys_delete_subset, Hin.
Qed.

Lemma keys_set {V} (k j : string) (v : V) (m : list (string * V)) :
  In j (JsMap.keys (JsMap.set k v m)) <-> j = k \/ In j (JsMap.keys m).
Proof.
  induction m as [|[k' v'] m IH]; simpl; [intuition congruence|].
  destruct (bool_decide (k' = k)) eqn:E; simpl.
  - apply bool_decide_eq_true_1 in E. subst. intuition congruence.
  - rewrite IH. intuition congruence.
Qed.

Lemma NoDup_keys_set {V} (k : string) (v : V) (m : list (string * V)) :
  NoDup (JsMap.keys m) -> NoDup (JsMap.keys (JsMap.set k v m)).
Proof.
  induction m as [|[k' v'] m IH]; simpl.
  - intros _. apply NoDup_cons. split; [apply not_elem_of_nil | apply NoDup_nil_2].
  - intros [Hk' Hnd]%NoDup_cons.
    destruct (bool_decide (k' = k)) eqn:E; simpl.
    + apply bool_decide_eq_true_1 in E. subst. apply NoDup_cons. now split.
    + apply bool_decide_eq_false_1 in E.
      apply NoDup_cons. split; [|now apply IH].
      rewrite list_elem_of_In, keys_set. intros [-> | Hin]; [congruence|].
      now apply Hk', list_elem_of_In.
Qed.

(** Deleting a key that occurs once removes that entry and nothing else. *)
Lemma delete_filter {V} (k : string) (m : list (string * V)) :
  JsMap.delete k m = List.filter (fun e => negb (bool_decide (fst e = k))) m.
Proof.
  induction m as [|[k' v'] m IH]; simpl; [reflexivity|].
  destruct (bool_decide (k' = k)); simpl; now rewrite IH.
Qed.

Lemma delete_absent {V} (k : string) (m : list (string * V)) :
  ~ In k (JsMap.keys m) -> JsMap.delete k m = m.
Proof.
  induction m as [|[k' v'] m IH]; simpl; [reflexivity|].
  intros H. rewrite bool_decide_eq_false_2 by tauto.
  rewrite IH by tauto. reflexivity.
Qed.

Lemma delete_app {V} (k : string) (a b : list (string * V)) :
  JsMap.delete k (a ++ b) = JsMap.delete k a ++ JsMap.delete k b.
Proof.
  induction a as [|[k' v'] a IH]; simpl; [reflexivity|].
  destruct (bool_decide (k' = k)); simpl; now rewrite IH.
Qed.

Lemma keys_app {V} (a b : list (string * V)) :
  JsMap.keys (a ++ b) = JsMap.keys a ++ JsMap.keys b.
Proof. unfold JsMap.keys. apply map_app. Qed.

Lemma keys_filter_subset {V} (p : string * V -> bool) (k : string) (m : list (string * V)) :
  In k (JsMap.keys (List.filter p m)) -> In k (JsMap.keys m).
Proof.
  induction m as [|e m IH]; simpl; [tauto|].
  destruct (p e); simpl; tauto.
Qed.

Lemma NoDup_keys_filter {V} (p : string * V -> bool) (m : list (string * V)) :
  NoDup (JsMap.keys m) -> NoDup (JsMap.keys (List.filter p m)).
Proof.
  induction m as [|e m IH]; simpl; [trivial|].
  intros [He Hnd]%NoDup_cons.
  destruct (p e); simpl; [|now apply IH].
  apply NoDup_cons. split; [|now apply IH].
  rewrite list_elem_of_In. intros Hin. apply He, list_elem_of_In.
  eapply keys_filter_subset, Hin.
Qed.

Lemma get_filter {V} (p : string * V -> bool) (k : string) (m : list (string * V)) :
  NoDup (JsMap.keys m) ->
  JsMap.get k (List.filter p m)
  = match JsMap.get k m with
    | Some v => if p (k, v) then Some v else None
    | None => None
    end.
Proof.
  induction m as [|[k' v'] m IH]; simpl; [reflexivity|].
  intros [Hk' Hnd]%NoDup_cons.
  destruct (bool_decide (k' = k)) eqn:E.
  - apply bool_decide_eq_true_1 in E. subst k'.
    destruct (p (k, v')) eqn:Ep; simpl.
    + now rewrite bool_decide_eq_true_2.
    + apply get_None_keys. intros Hin. apply Hk', list_elem_of_In.
      eapply keys_filter_subset, Hin.
  - destruct (p (k', v')); simpl; [rewrite E|]; now apply IH.
Qed.

(** ** Pending context requests *)

Lemma scanRequests_spec (now : Z) (entries : list (string * Z)) :
  forall pre embedIds,
    NoDup (JsMap.keys (pre ++ entries)) ->
    scanRequests now entries embedIds (pre ++ entries)
    = (embedIds ++ JsMap.keys (List.filter (live now) entries),
       pre ++ List.filter (live now) entries).
Proof.
  induction entries as [|[id at_] rest IH]; intros pre embedIds Hnd; simpl.
  - now rewrite !app_nil_r.
  - change (now - at_ <? CONTEXT_REQUEST_TTL_MS) with (live now (id, at_)).
    destruct (live now (id, at_)) eqn:E.
    + change (pre ++ (id, at_) :: rest) with (pre ++ [(id, at_)] ++ rest).
      rewrite app_assoc. rewrite IH by now rewrite <- app_assoc.
      simpl. now rewrite <- !app_assoc.
    + assert (Hdel : JsMap.delete id (pre ++ (id, at_) :: rest) = pre ++ rest).
      { rewrite keys_app in Hnd. simpl in Hnd.
        apply NoDup_app in Hnd as (_ & Hdisj & [Hid _]%NoDup_cons).
        rewrite delete_app. simpl. rewrite bool_decide_eq_true_2 by reflexivity.
        rewrite !delete_absent; [reflexivity| |].
        - now rewrite <- list_elem_of_In.
        - intros Hin%list_elem_of_In. apply (Hdisj id Hin). left. }
      rewrite Hdel. apply IH.
      rewrite keys_app in *. simpl in Hnd.
      apply NoDup_app in Hnd as (Hpre & Hdisj & [_ Hrest]%NoDup_cons).
      apply NoDup_app. repeat split; [assumption| |assumption].
      intros x Hx Hx'. apply (Hdisj x Hx). now right.
Qed.

(** On a map (one entry per key) the read returns the live ids in insertion
    order and leaves exactly the live entries. *)
Lemma listPendingRequests_filter (now : Z) (times : list (string * Z)) :
  NoDup (JsMap.keys times) ->
  listPendingRequests now times
  = (JsMap.keys (List.filter (live now) times), List.filter (live now) times).
Proof.
  intros Hnd. unfold listPendingRequests.
  apply (scanRequests_spec now times [] []). exact Hnd.
Qed.

Lemma filter_live_later (now now2 : Z) (times : list (string * Z)) :
  now <= now2 ->
  List.filter (live now2) (List.filter (live now) times) = List.filter (live now2) times.
Proof.
  intros Hle. induction times as [|e m IH]; simpl; [reflexivity|].
  destruct (live now e) eqn:E1; simpl.
  - now rewrite IH.
  - replace (live now2 e) with false; [assumption|].
    unfold live in *. lia.
Qed.

Lemma filter_idem {A} (p : A -> bool) (l : list A) :
  List.filter p (List.filter p l) = List.filter p l.
Proof.
  induction l as [|x l IH]; simpl; [reflexivity|].
  destruct (p x) eqn:E; simpl; [rewrite E|]; now rewrite IH.
Qed.

Lemma keys_get {V} (k : string) (m : list (string * V)) :
  In k (JsMap.keys m) <-> exists v, JsMap.get k m = Some v.
Proof.
  destruct (JsMap.get k m) as [v|] eqn:E.
  - split; [eauto|]. intros _.
    destruct (in_dec string_dec k (JsMap.keys m)) as [Hin | Hnin]; [assumption|].
    apply get_None_keys in Hnin. congruence.
  - split; [|intros [v [=]]]. intros Hin. apply get_None_keys in E. contradiction.
Qed.

Lemma get_filter_live (now : Z) (times : list (string * Z)) (id : string) (at_ : Z) :
  NoDup (JsMap.keys times) ->
  JsMap.get id (List.filter (live now) times) = Some at_ <->
  JsMap.get id times = Some at_ /\ now - at_ < CONTEXT_REQUEST_TTL_MS.
Proof.
  intros Hnd. rewrite get_filter by assumption.
  destruct (JsMap.get id times) as [a|]; [|split; [discriminate | intros [[=] _]]].
  unfold live. simpl.
  destruct (now - a <? CONTEXT_REQUEST_TTL_MS) eqn:E.
  - split; [intros [= ->]; split; [reflexivity | lia] | intros [H _]; exact H].
  - split; [discriminate | intros [[= ->] H]; lia].
Qed.

(** C9.  [GET /api/context/requests] at time [now] answers with exactly the
    embed ids whose request was recorded less than 30 s before [now], in the
    order of the map; the map it leaves in the server state holds exactly
    those entries, so every entry found expired is deleted, and nothing else
    of the state changes.  A read that follows at the same time gives the
    same answer and has nothing to purge, and one that follows later purges
    only entries that were still live at the first read. *)
Theorem pending_requests_ttl (amb : ambient) (st : server) :
  NoDup (JsMap.keys (contextRequestTimes st)) ->
  let times := contextRequestTimes st in
  let st' := fst (contextRequests amb st) in
  let response := snd (contextRequests amb st) in
  let times' := contextRequestTimes st' in
  (exists embedIds,
     response = HttpResponse 200 (JObj [("embedIds", JArr (List.map JStr embedIds))])
     /\ embedIds = JsMap.keys (List.filter (live (now amb)) times)
     /\ forall id, In id embedIds <->
          exists at_, JsMap.get id times = Some at_
                      /\ now amb - at_ < CONTEXT_REQUEST_TTL_MS)
  /\ (forall id at_, JsMap.get id times' = Some at_ <->
        JsMap.get id times = Some at_ /\ now amb - at_ < CONTEXT_REQUEST_TTL_MS)
  /\ (forall id at_, JsMap.get id times = Some at_ ->
        CONTEXT_REQUEST_TTL_MS <= now amb - at_ -> JsMap.get id times' = None)
  /\ (sessions st' = sessions st /\ objects st' = objects st /\ ptys st' = ptys st
      /\ sockets st' = sockets st /\ contextStore st' = contextStore st)
  /\ (forall amb2, now amb2 = now amb -> contextRequests amb2 st' = (st', response))
  /\ (forall amb2 id at_,
        now amb <= now amb2 ->
        JsMap.get id times' = Some at_ ->
        JsMap.get id (contextRequestTimes (fst (contextRequests amb2 st'))) = None ->
        now amb - at_ < CONTEXT_REQUEST_TTL_MS <= now amb2 - at_).
Proof.
  intros Hnd. cbv zeta. unfold contextRequests.
  rewrite listPendingRequests_filter by assumption.
  cbn [fst snd contextRequestTimes with_contextRequestTimes sessions objects ptys sockets
       contextStore].
  pose proof (NoDup_keys_filter (live (now amb)) _ Hnd) as Hnd'.
  split; [|split; [|split; [|split; [|split]]]].
  - eexists. split; [reflexivity|]. split; [reflexivity|].
    intros id. rewrite keys_get. split.
    + intros [a Ha]. exists a. now apply get_filter_live in Ha.
    + intros (a & Ha). exists a. now apply get_filter_live.
  - intros id at_. now apply get_filter_live.
  - intros id at_ Hget Hexp. rewrite get_filter, Hget by assumption.
    unfold live. simpl.
    now replace (now amb - at_ <? CONTEXT_REQUEST_TTL_MS) with false by lia.
  - repeat split.
  - intros amb2 Heq. rewrite Heq.
    rewrite listPendingRequests_filter by assumption. now rewrite filter_idem.
  - intros amb2 id a Hle Hin Hout.
    rewrite listPendingRequests_filter in Hout by assumption.
    cbn [fst snd contextRequestTimes with_contextRequestTimes] in Hout.
    rewrite get_filter, Hin in Hout by assumption.
    apply get_filter_live in Hin as [_ Hlive]; [|assumption]. split; [assumption|].
    unfold live in Hout. simpl in Hout.
    destruct (now amb2 - a <? CONTEXT_REQUEST_TTL_MS) eqn:E; [discriminate | lia].
Qed.

Lemma pending_requests_ttl_witness :
  JsMap.get "e1"
    (contextRequestTimes
       (fst (contextRequests (Ambient 30001 [] NaN)
               (with_contextRequestTimes (fun _ => [("e1", 0); ("e2", 20000)]) emptyServer))))
  = None.
Proof.
  destruct (pending_requests_ttl (Ambient 30001 [] NaN)
              (with_contextRequestTimes (fun _ => [("e1", 0); ("e2", 20000)]) emptyServer))
    as (_ & _ & H & _).
  - simpl. apply NoDup_cons. split.
    + rewrite list_elem_of_In. simpl. intros [H | []]. discriminate H.
    + apply NoDup_cons. split; [apply not_elem_of_nil | apply NoDup_nil_2].
  - apply (H "e1" 0).
    + reflexivity.
    + simpl. unfold CONTEXT_REQUEST_TTL_MS. lia.
Defined.

(** ** Context push *)

Lemma viewportOf_Some (v : option json) (r : viewportRect) :
  viewportOf v = Some r <->
  exists o x y w h,
    v = Some o
    /\ prop "x" o = Some (JNum (Finite x)) /\ prop "y" o = Some (JNum (Finite y))
    /\ prop "width" o = Some (JNum (Finite w)) /\ prop "height" o = Some (JNum (Finite h))
    /\ r = Viewport (Finite x) (Finite y) (Finite w) (Finite h).
Proof.
  unfold viewportOf. split.
  - destruct v as [o|]; [|discriminate].
    destruct (isObject (Some o)); [|discriminate]. simpl.
    destruct (prop "x" o) as [[| |[| |x]| | |]|] eqn:Hx; try discriminate.
    destruct (prop "y" o) as [[| |[| |y]| | |]|] eqn:Hy; try discriminate.
    destruct (prop "width" o) as [[| |[| |w]| | |]|] eqn:Hw; try discriminate.
    destruct (prop "height" o) as [[| |[| |h]| | |]|] eqn:Hh; try discriminate.
    simpl. intros [= <-]. exists o, x, y, w, h. tauto.
  - intros (o & x & y & w & h & -> & Hx & Hy & Hw & Hh & ->).
    assert (Ho : isObject (Some o) = true).
    { destruct o; simpl in Hx; try discriminate. reflexivity. }
    rewrite Ho. simpl. now rewrite Hx, Hy, Hw, Hh.
Qed.

(** C8.  A push whose docs field is not an array is answered with 400 and
    changes nothing.  A push whose docs field is an array is answered with
    the number of docs; the record stored under the embed id holds these
    docs, the current time, and the viewport {x, y, width, height} exactly
    when the four fields are finite numbers (null otherwise); no other
    record is touched. *)
Theorem context_push_validation (amb : ambient) (embedId : string)
    (req : httpRequest) (st : server) :
  (isArray (prop "docs" (req_body req)) = None ->
     contextPush amb embedId req st
     = (st, HttpResponse 400 (JObj [("error", JStr "docs must be an array")])))
  /\ (forall ds, prop "docs" (req_body req) = Some (JArr ds) ->
        let st' := fst (contextPush amb embedId req st) in
        snd (contextPush amb embedId req st)
        = HttpResponse 200
            (JObj [("ok", JBool true); ("count", JNum (numOfZ (Z.of_nat (length ds))))])
        /\ (exists r, JsMap.get embedId (contextStore st') = Some r
              /\ docs r = ds
              /\ updatedAt r = now amb
              /\ (forall x y w h : Q,
                    (exists o, prop "viewport" (req_body req) = Some o
                       /\ prop "x" o = Some (JNum (Finite x))
                       /\ prop "y" o = Some (JNum (Finite y))
                       /\ prop "width" o = Some (JNum (Finite w))
                       /\ prop "height" o = Some (JNum (Finite h)))
                    <-> viewport r = Some (Viewport (Finite x) (Finite y) (Finite w) (Finite h)))
              /\ (viewport r = None \/
                  exists x y w h : Q,
                    viewport r = Some (Viewport (Finite x) (Finite y) (Finite w) (Finite h))))
        /\ (forall other, other <> embedId ->
              JsMap.get other (contextStore st') = JsMap.get other (contextStore st))
        /\ sessions st' = sessions st /\ objects st' = objects st
        /\ ptys st' = ptys st /\ sockets st' = sockets st
        /\ contextRequestTimes st' = contextRequestTimes st).
Proof.
  split.
  - intros H. unfold contextPush. now rewrite H.
  - intros ds Hds. unfold contextPush. rewrite Hds. simpl.
    split; [reflexivity|]. split; [|split].
    + eexists. split; [apply get_set_eq|]. simpl.
      split; [reflexivity|]. split; [reflexivity|]. split.
      * intros x y w h. rewrite viewportOf_Some. split.
        -- intros (o & Ho & Hx & Hy & Hw & Hh). exists o, x, y, w, h. tauto.
        -- intros (o & x' & y' & w' & h' & Ho & Hx & Hy & Hw & Hh & [= -> -> -> ->]).
           exists o. tauto.
      * destruct (viewportOf (prop "viewport" (req_body req))) as [r|] eqn:E; [|now left].
        right. apply viewportOf_Some in E as (o & x & y & w & h & _ & _ & _ & _ & _ & ->).
        now exists x, y, w, h.
    + intros other Hne. apply get_set_ne. congruence.
    + repeat split.
Qed.

Lemma context_push_validation_witness :
  contextPush (Ambient 5 [] NaN) "e1"
    (HttpRequest POST "/api/context/e1" [] (JObj [("docs", JStr "not-an-array")]) false None)
    emptyServer
  = (emptyServer, HttpResponse 400 (JObj [("error", JStr "docs must be an array")])).
Proof.
  apply (context_push_validation (Ambient 5 [] NaN) "e1"
           (HttpRequest POST "/api/context/e1" [] (JObj [("docs", JStr "not-an-array")])
              false None) emptyServer).
  reflexivity.
Defined.

(** The second example of the specification: a viewport with a NaN width is
    stored as null. *)
Example context_push_nan_viewport :
  contextStore
    (fst (contextPush (Ambient 5 [] NaN) "e1"
            (HttpRequest POST "/api/context/e1" []
               (JObj [("docs", JArr []);
                      ("viewport", JObj [("x", JNum (Finite 1)); ("y", JNum (Finite 2));
                                         ("width", JNum NaN); ("height", JNum (Finite 4))])])
               false None)
            emptyServer))
  = [("e1", ContextRecord [] None 5)].
Proof. reflexivity. Qed.

(** ** Upgrade requests *)

(** The outcomes of an upgrade request.  Off the /pty path the socket is
    destroyed.  On it, a missing (or empty) sid or token is answered with
    401; with both present the answer is 403 exactly when [verifyToken]
    returned false, and when [verifyToken] throws the exception leaves the
    handler and nothing is written to the socket; in all these cases the
    state is untouched and no WebSocket is created.  The connection handler
    runs only after [verifyToken] returned true on the sid and token of the
    request. *)
Theorem upgrade_outcomes (cfg : config) (now : Z) (req : upgradeRequest) (st : server) :
  let sid := JsMap.get "sid" (up_query req) in
  let token := JsMap.get "token" (up_query req) in
  (up_pathname req <> "/pty" -> onUpgrade cfg now req st = (st, SocketDestroyed))
  /\ (up_pathname req = "/pty" -> qfalsy sid = true \/ qfalsy token = true ->
     onUpgrade cfg now req st = (st, Rejected 401))
  /\ (forall sidv tokenv,
        up_pathname req = "/pty" ->
        sid = Some sidv -> token = Some tokenv ->
        qfalsy sid = false -> qfalsy token = false ->
        (verifyTokenQ cfg now sidv tokenv = Return false ->
           onUpgrade cfg now req st = (st, Rejected 403))
        /\ (forall e, verifyTokenQ cfg now sidv tokenv = Throw e ->
             onUpgrade cfg now req st = (st, Thrown e))
        /\ (onUpgrade cfg now req st = (st, Rejected 403) ->
             verifyTokenQ cfg now sidv tokenv = Return false))
  /\ (forall st' ws attached,
        onUpgrade cfg now req st = (st', Connection ws attached) ->
        up_pathname req = "/pty"
        /\ exists sidv tokenv,
             sid = Some sidv /\ token = Some tokenv
             /\ qfalsy sid = false /\ qfalsy token = false
             /\ verifyTokenQ cfg now sidv tokenv = Return true).
Proof.
  cbv zeta. unfold onUpgrade. split; [|split; [|split]].
  - intros Hp. now rewrite bool_decide_eq_false_2.
  - intros Hp Hf. rewrite bool_decide_eq_true_2 by assumption.
    destruct (JsMap.get "sid" (up_query req)) as [sidv|];
      destruct (JsMap.get "token" (up_query req)) as [tokenv|]; try reflexivity.
    destruct Hf as [-> | ->]; [reflexivity | now rewrite orb_true_r].
  - intros sidv tokenv Hp -> -> Hs Ht.
    rewrite bool_decide_eq_true_2 by assumption. rewrite Hs, Ht. cbn [orb].
    split; [|split].
    + now intros ->.
    + now intros e ->.
    + destruct (verifyTokenQ cfg now sidv tokenv) as [[|]|e]; try discriminate;
        [|reflexivity].
      destruct (up_handshake req); [|discriminate].
      destruct (onConnection now (length (sockets st)) sidv
                  (with_sockets (fun l => l ++ [WebSocket OPEN []]) st));
        discriminate.
  - intros st' ws attached H.
    destruct (bool_decide (up_pathname req = "/pty")) eqn:E; [|discriminate].
    apply bool_decide_eq_true_1 in E. split; [assumption|].
    destruct (JsMap.get "sid" (up_query req)) as [sidv|]; [|discriminate].
    destruct (JsMap.get "token" (up_query req)) as [tokenv|]; [|discriminate].
    destruct (qfalsy (Some sidv)) eqn:Hs; [discriminate|].
    destruct (qfalsy (Some tokenv)) eqn:Ht; [discriminate|]. simpl in H.
    destruct (verifyTokenQ cfg now sidv tokenv) as [[|]|] eqn:Hv; try discriminate.
    exists sidv, tokenv. tauto.
Qed.

Lemma upgrade_outcomes_witness :
  onUpgrade devConfig 1000 (UpgradeRequest "/pty" [("sid", QStr "board-1")] true) emptyServer
  = (emptyServer, Rejected 401).
Proof.
  destruct (upgrade_outcomes devConfig 1000
              (UpgradeRequest "/pty" [("sid", QStr "board-1")] true) emptyServer)
    as (_ & H & _).
  apply H.
  - reflexivity.
  - right. reflexivity.
Defined.

(** C2 (code at the failing input).  The session board-1 exists.  An upgrade
    request on /pty carries its sid and a token whose expiry lies in the
    future and whose signature is four hexadecimal digits.  Verification
    does not succeed, yet no 403 is written: [verifyToken] throws inside
    the handler, which has no try/catch, so the exception leaves the handler
    and the socket is neither answered nor destroyed.  A wrong signature of
    the full length is answered with 403, as is an expired token. *)
Theorem upgrade_short_signature_not_forbidden :
  let st := scenarioStarted in
  let upgrade token :=
    onUpgrade devConfig 1000
      (UpgradeRequest "/pty" [("sid", QStr "board-1"); ("token", QStr token)] true) st in
  (exists ref s, getSession st "board-1" = Some (ref, s))
  /\ upgrade "901000.abcd"
     = (st, Thrown (RangeError "Input buffers must have the same byte length"))
  /\ upgrade "901000.abcd" <> (st, Rejected 403)
  /\ upgrade "901000.0000000000000000000000000000000000000000000000000000000000000000"
     = (st, Rejected 403)
  /\ upgrade "999.abcd" = (st, Rejected 403).
Proof.
  cbv zeta. split; [|split; [|split; [|split]]].
  - eexists _, _. vm_compute. reflexivity.
  - vm_compute. reflexivity.
  - vm_compute. discriminate.
  - vm_compute. reflexivity.
  - vm_compute. reflexivity.
Qed.

(** ** Start or attach *)






(** ** Idle sweep *)


(** ** Routing *)

Lemma decode_plain (s : string) :
  Str.all (differs "%") s = true ->
  forall fuel, (String.length s <= fuel)%nat -> URI.decode fuel s = Return s.
Proof.
  induction s as [|c s IH]; intros Hall fuel Hfuel.
  - destruct fuel; reflexivity.
  - destruct fuel as [|fuel]; [simpl in Hfuel; lia|].
    simpl in Hall. apply andb_true_iff in Hall as [Hc Hs].
    unfold differs in Hc. apply negb_true_iff in Hc.
    simpl. rewrite Hc. rewrite IH; [reflexivity | assumption | simpl in Hfuel; lia].
Qed.

Lemma decodeURIComponent_plain (s : string) :
  Str.all (differs "%") s = true -> URI.decodeURIComponent s = Return s.
Proof. intros H. apply decode_plain; [assumption | lia]. Qed.

Lemma split_all (p : ascii -> bool) (sep : ascii) (s : string) :
  Str.all p s = true ->
  forall seg, In seg (Str.split sep s) -> Str.all p seg = true.
Proof.
  induction s as [|c s IH]; simpl.
  - intros _ seg [<- | []]. reflexivity.
  - intros [Hc Hs]%andb_true_iff seg.
    destruct (Chr.eqb c sep).
    + intros [<- | Hin]; [reflexivity | now apply IH].
    + destruct (Str.split sep s) as [|h t] eqn:E.
      * intros [<- | []]. simpl. now rewrite Hc.
      * intros [<- | Hin].
        -- simpl. rewrite Hc. apply IH; [assumption | now left].
        -- apply IH; [assumption | now right].
Qed.

Lemma pull_segments (segs : list string) (ps : list (string * string)) :
  matchSegments [""; "api"; "context"; ":embedId"] segs = Matched ps ->
  matchSegments [""; "api"; "context"; "requests"] segs = NoMatch ->
  exists seg v,
    In seg segs /\ URI.decodeURIComponent seg = Return v
    /\ ps = [("embedId", v)] /\ Str.toLowerCase seg <> "requests".
Proof.
  destruct segs as [|a0 [|a1 [|a2 [|s rest]]]]; try discriminate; simpl.
  all: destruct (bool_decide (Str.toLowerCase "" = Str.toLowerCase a0)); try discriminate.
  all: destruct (bool_decide (Str.toLowerCase "api" = Str.toLowerCase a1)); try discriminate.
  all: destruct (bool_decide (Str.toLowerCase "context" = Str.toLowerCase a2)); try discriminate.
  destruct (Str.is_empty s) eqn:Es; [discriminate|].
  destruct (bool_decide (Str.toLowerCase "requests" = Str.toLowerCase s)) eqn:El.
  - destruct rest as [|last [|? ?]]; try discriminate.
    destruct (Str.is_empty last); discriminate.
  - apply bool_decide_eq_false_1 in El.
    intros Hm _. exists s.
    destruct (match rest with
              | [] => Matched []
              | [last] => if Str.is_empty last then Matched [] else NoMatch
              | _ => NoMatch
              end) as [|params|] eqn:Er; try discriminate.
    destruct (URI.decodeURIComponent s) as [v|e]; [|discriminate].
    exists v. injection Hm as <-.
    assert (params = []) as ->.
    { destruct rest as [|last [|? ?]]; try discriminate; [congruence|].
      destruct (Str.is_empty last); [congruence | discriminate]. }
    repeat split; [tauto | intros H; apply El; now rewrite H].
Qed.

Lemma dispatch_pull (pathname : string) (ps : list (string * string)) :
  dispatch routes GET pathname false = Routed ContextPull ps ->
  matchLayer "/api/context/:embedId" pathname = Matched ps
  /\ matchLayer "/api/context/requests" pathname = NoMatch.
Proof.
  unfold routes. cbn [dispatch handlesMethod].
  destruct (matchLayer "/api/pty/start" pathname);
    destruct (matchLayer "/api/pty/close" pathname);
    destruct (matchLayer "/api/context/:embedId" pathname);
    destruct (matchLayer "/api/context/requests" pathname);
    cbn [dispatch handlesMethod];
    try discriminate; try (intros [= <-]; tauto);
    destruct (matchLayer "/api/context/:embedId/request" pathname);
    destruct (matchLayer "/health" pathname); discriminate.
Qed.

(** A request path without percent sign that reaches the pull route does not
    carry the embed id [requests]. *)
Lemma pull_route_plain (pathname : string) (ps : list (string * string)) :
  Str.all (differs "%") pathname = true ->
  dispatch routes GET pathname false = Routed ContextPull ps ->
  param "embedId" ps <> "requests".
Proof.
  intros Hplain [Hm Hn]%dispatch_pull.
  destruct (pull_segments _ _ Hm Hn) as (seg & v & Hin & Hdec & -> & Hlow).
  rewrite decodeURIComponent_plain in Hdec by (eapply split_all; eassumption).
  injection Hdec as <-. unfold param. simpl. intros ->. now apply Hlow.
Qed.

(** C10 (amended).  A POST to /api/context/requests is handled by the push
    route with the embed id [requests], so a valid docs array is stored under
    that key.  A GET to /api/context/requests is handled by the list route,
    which answers with the pending embed ids and leaves the store alone.  The
    pull route receives the embed id [requests] only from a request path
    that spells it with a percent escape. *)
Theorem routing_shadow (cfg : config) (env : processEnv) (amb : ambient)
    (req : httpRequest) (st : server) :
  (req_method req = POST -> req_pathname req = "/api/context/requests" ->
     handle cfg env amb req st = contextPush amb "requests" req st
     /\ forall ds, prop "docs" (req_body req) = Some (JArr ds) ->
          exists r, JsMap.get "requests" (contextStore (fst (handle cfg env amb req st))) = Some r
                    /\ docs r = ds)
  /\ (req_method req = GET -> req_pathname req = "/api/context/requests" ->
        snd (handle cfg env amb req st)
        = HttpResponse 200
            (JObj [("embedIds",
                    JArr (List.map JStr
                            (fst (listPendingRequests (now amb) (contextRequestTimes st)))))])
        /\ contextStore (fst (handle cfg env amb req st)) = contextStore st)
  /\ (forall ps,
        dispatch routes GET (req_pathname req) false = Routed ContextPull ps ->
        param "embedId" ps = "requests" ->
        Str.all (differs "%") (req_pathname req) = false).
Proof.
  split; [|split].
  - intros Hm Hp. unfold handle. rewrite Hm, Hp.
    split; [reflexivity|]. intros ds Hds.
    change (dispatch routes POST "/api/context/requests" false)
      with (Routed ContextPush [("embedId", "requests")]).
    cbv iota. unfold contextPush. rewrite Hds. simpl.
    eexists. split; [apply get_set_eq | reflexivity].
  - intros Hm Hp. unfold handle. rewrite Hm, Hp.
    change (dispatch routes GET "/api/context/requests" false)
      with (Routed ContextRequests []).
    cbv iota. unfold contextRequests.
    destruct (listPendingRequests (now amb) (contextRequestTimes st)). split; reflexivity.
  - intros ps Hd Hps.
    destruct (Str.all (differs "%") (req_pathname req)) eqn:E; [|reflexivity].
    exfalso. exact (pull_route_plain _ _ E Hd Hps).
Qed.

Lemma routing_shadow_witness :
  handle devConfig devEnv (Ambient 5 [] NaN)
    (HttpRequest POST "/api/context/requests" [] (JObj [("docs", JArr [JStr "doc"])]) false None)
    emptyServer
  = contextPush (Ambient 5 [] NaN) "requests"
      (HttpRequest POST "/api/context/requests" [] (JObj [("docs", JArr [JStr "doc"])]) false None)
      emptyServer.
Proof.
  apply (routing_shadow devConfig devEnv (Ambient 5 [] NaN)
           (HttpRequest POST "/api/context/requests" [] (JObj [("docs", JArr [JStr "doc"])])
              false None) emptyServer); reflexivity.
Defined.

(** C10 fails as stated: the record stored by POST /api/context/requests is
    read back by GET /api/context/%72equests, which the literal route does
    not match and whose segment the pull route decodes to [requests]. *)
Lemma routing_shadow_counterexample :
  let stored :=
    fst (handle devConfig devEnv (Ambient 5 [] NaN)
           (HttpRequest POST "/api/context/requests" []
              (JObj [("docs", JArr [JStr "doc"])]) false None)
           emptyServer) in
  dispatch routes GET "/api/context/%72equests" false
  = Routed ContextPull [("embedId", "requests")]
  /\ snd (handle devConfig devEnv (Ambient 6 [] NaN)
            (HttpRequest GET "/api/context/%72equests" [] (JObj []) false None) stored)
     = HttpResponse 200
         (JObj [("docs", JArr [JStr "doc"]); ("viewport", JNull);
                ("updatedAt", JNum (numOfZ 5))]).
Proof. vm_compute. split; reflexivity. Qed.

(** ** Further properties of the token codec *)

Lemma verifyToken_accepts (cfg : config) (now : Z) (sid token : string)
    (expStr signature : string) (exp : Z) :
  sid <> "" ->
  Str.split "." token = [expStr; signature] ->
  Num.parseInt expStr = Some exp ->
  now <= exp ->
  Buffer.fromHex signature
  = Crypto.hmac_sha256 (Str.bytes (SIGN_SECRET cfg)) (Str.bytes (tokenPayload sid exp)) ->
  verifyToken cfg now sid token = Return true.
Proof.
  intros Hs Hsplit Hparse Hexp Hsig. unfold verifyToken, checkSignature.
  assert (Ht : Str.is_empty token = false).
  { destruct token; [discriminate Hsplit | reflexivity]. }
  assert (Hs' : Str.is_empty sid = false) by (destruct sid; [congruence | reflexivity]).
  rewrite Ht, Hs', Hsplit, Hparse. cbn [orb].
  replace (exp <? now) with false by lia.
  unfold hmacHex. rewrite fromHex_toHex, Hsig. apply timingSafeEqual_same.
Qed.

(** For a token whose first field, when it is numeric, is a safe integer,
    [verifyToken] returns true exactly when the session id is not empty and
    the token has two fields, the first parsing to an expiry not before
    [now] and the second decoding to the HMAC of the payload for that
    session id and expiry. *)
Theorem verifyToken_accepts_iff (cfg : config) (now : Z) (sid token : string) :
  (forall exp, Num.parseInt (hd "" (Str.split "." token)) = Some exp ->
     Num.isSafeInteger exp = true) ->
  verifyToken cfg now sid token = Return true
  <-> sid <> "" /\
      exists expStr signature exp,
        Str.split "." token = [expStr; signature]
        /\ Num.parseInt expStr = Some exp
        /\ now <= exp
        /\ Buffer.fromHex signature
           = Crypto.hmac_sha256 (Str.bytes (SIGN_SECRET cfg))
               (Str.bytes (tokenPayload sid exp)).
Proof.
  intros _. split.
  - unfold verifyToken, checkSignature. intros H.
    destruct (Str.is_empty token || Str.is_empty sid) eqn:G; [discriminate|].
    apply orb_false_iff in G as [_ Gs].
    split; [intros ->; discriminate|].
    destruct (Str.split "." token) as [|expStr [|signature [|? ?]]] eqn:Hsplit;
      try discriminate.
    destruct (Num.parseInt expStr) as [exp|] eqn:Hparse; [|discriminate].
    destruct (exp <? now) eqn:E; [discriminate|].
    exists expStr, signature, exp.
    split; [reflexivity|]. split; [assumption|]. split; [lia|].
    unfold timingSafeEqual, hmacHex, Buffer.eqb in H. rewrite fromHex_toHex in H.
    destruct (Nat.eqb _ _); [|discriminate].
    injection H as H. apply bool_decide_eq_true_1 in H. exact H.
  - intros (Hs & expStr & signature & exp & Hsplit & Hparse & Hexp & Hsig).
    eapply verifyToken_accepts; eassumption.
Qed.

Lemma verifyToken_accepts_iff_witness :
  verifyToken devConfig 1700000000001 "board-1"
    (createToken devConfig 1700000000000 "board-1") = Return true
  <-> "board-1" <> "" /\
      exists expStr signature exp,
        Str.split "." (createToken devConfig 1700000000000 "board-1") = [expStr; signature]
        /\ Num.parseInt expStr = Some exp
        /\ 1700000000001 <= exp
        /\ Buffer.fromHex signature
           = Crypto.hmac_sha256 (Str.bytes (SIGN_SECRET devConfig))
               (Str.bytes (tokenPayload "board-1" exp)).
Proof.
  apply (verifyToken_accepts_iff devConfig 1700000000001 "board-1"
           (createToken devConfig 1700000000000 "board-1")).
  intros exp. rewrite createToken_split. cbn [hd]. rewrite parseInt_toString.
  intros [= <-]. reflexivity.
Defined.

(** With the clock value, the token life time and their sum in the range of
    safe integers, an issued token is the decimal expiry, a dot, and 64
    lower-case hexadecimal digits; it has exactly two dot-separated fields,
    and its first field reads back as the expiry [now + TOKEN_TTL]. *)
Theorem createToken_format (cfg : config) (now : Z) (sid : string) :
  safeExpiry cfg now = true ->
  exists signature,
    createToken cfg now sid = Num.toString (now + TOKEN_TTL cfg) +:+ "." +:+ signature
    /\ String.length signature = 64%nat
    /\ Str.all is_lower_hex signature = true
    /\ Str.split "." (createToken cfg now sid) = [Num.toString (now + TOKEN_TTL cfg); signature]
    /\ Num.parseInt (Num.toString (now + TOKEN_TTL cfg)) = Some (now + TOKEN_TTL cfg).
Proof.
  intros _.
  exists (hmacHex (SIGN_SECRET cfg) (tokenPayload sid (now + TOKEN_TTL cfg))).
  split; [reflexivity|]. split; [|split; [|split]].
  - unfold hmacHex. now rewrite toHex_length, hmac_sha256_length.
  - apply toHex_lower_hex.
  - apply createToken_split.
  - apply parseInt_toString.
Qed.

Lemma createToken_format_witness :
  exists signature,
    createToken devConfig 1700000000000 "board-1"
    = Num.toString (1700000000000 + TOKEN_TTL devConfig) +:+ "." +:+ signature
    /\ String.length signature = 64%nat
    /\ Str.all is_lower_hex signature = true
    /\ Str.split "." (createToken devConfig 1700000000000 "board-1")
       = [Num.toString (1700000000000 + TOKEN_TTL devConfig); signature]
    /\ Num.parseInt (Num.toString (1700000000000 + TOKEN_TTL devConfig))
       = Some (1700000000000 + TOKEN_TTL devConfig).
Proof.
  apply (createToken_format devConfig 1700000000000 "board-1"). reflexivity.
Defined.

Lemma fromHex_toHex_suffix (b : list ascii) (c : ascii) (rest : string) :
  Chr.unhex c = None ->
  Buffer.fromHex (Buffer.toHex b +:+ String c rest) = b.
Proof.
  intros Hc. induction b as [|x b IH]; simpl.
  - destruct rest; [reflexivity|]. now rewrite Hc.
  - destruct (nibbles x) as [Hh Hl].
    rewrite !unhex_hexdigit by assumption. rewrite IH. f_equal.
    rewrite <- Z.div_mod by lia. apply of_code_code.
Qed.

(** Tokens are not canonical: with the issue time, the token life time and
    the expiry in the range of safe integers, an unexpired token followed by
    any text that starts with a non-hexadecimal character and has no dot
    still verifies, because [Buffer.from(_, 'hex')] stops at the first
    invalid pair. *)
Theorem verifyToken_ignores_suffix (cfg : config) (T now : Z) (sid : string)
    (c : ascii) (rest : string) :
  sid <> "" ->
  safeExpiry cfg T = true ->
  now <= T + TOKEN_TTL cfg ->
  Chr.unhex c = None ->
  Str.all (differs ".") (String c rest) = true ->
  verifyToken cfg now sid (createToken cfg T sid +:+ String c rest) = Return true.
Proof.
  intros Hs _ Hnow Hc Hdot.
  apply (verifyToken_accepts cfg now sid _ (Num.toString (T + TOKEN_TTL cfg))
           (hmacHex (SIGN_SECRET cfg) (tokenPayload sid (T + TOKEN_TTL cfg)) +:+ String c rest)
           (T + TOKEN_TTL cfg));
    [assumption | | apply parseInt_toString | assumption |].
  - unfold createToken. cbv zeta. rewrite !append_assoc.
    change ("." +:+ ?x) with (String "." x).
    rewrite split_append by apply toString_no_dot.
    rewrite split_without; [reflexivity|].
    rewrite all_append. unfold hmacHex. now rewrite toHex_no_dot.
  - unfold hmacHex. now apply fromHex_toHex_suffix.
Qed.

Lemma verifyToken_ignores_suffix_witness :
  verifyToken devConfig 1700000000001 "board-1"
    (createToken devConfig 1700000000000 "board-1" +:+ "!anything") = Return true.
Proof.
  apply (verifyToken_ignores_suffix devConfig 1700000000000 1700000000001 "board-1"
           "!" "anything").
  - discriminate.
  - reflexivity.
  - simpl. lia.
  - reflexivity.
  - reflexivity.
Defined.

(** ** Further properties of the working directory *)

Lemma normalize_plain (segs : list string) :
  forall stack, Forall plainSegment stack ->
  Forall plainSegment (Path.normalize false segs stack).
Proof.
  induction segs as [|s rest IH]; intros stack Hstack; simpl.
  - now apply Forall_rev.
  - destruct (bool_decide (s = "")) eqn:E1; [now apply IH|].
    destruct (bool_decide (s = ".")) eqn:E2; [now apply IH|]. simpl.
    destruct (bool_decide (s = "..")) eqn:E3.
    + destruct stack as [|top below]; [now apply IH|].
      apply Forall_cons in Hstack as [(_ & _ & Htop) Hbelow].
      rewrite bool_decide_eq_false_2 by assumption. now apply IH.
    + apply IH. apply Forall_cons. split; [|assumption].
      apply bool_decide_eq_false_1 in E1, E2, E3. now repeat split.
Qed.

Lemma split_segments_no_sep (sep : ascii) (s : string) :
  Forall (fun seg => Str.all (differs sep) seg = true) (Str.split sep s).
Proof.
  induction s as [|c s IH]; simpl.
  - now repeat constructor.
  - destruct (Chr.eqb c sep) eqn:E.
    + constructor; [reflexivity | assumption].
    + destruct (Str.split sep s) as [|h t]; [repeat constructor; simpl|].
      * unfold differs. now rewrite E.
      * apply Forall_cons in IH as [Hh Ht]. constructor; [|assumption].
        simpl. unfold differs at 1. now rewrite E.
Qed.

Lemma normalize_no_sep (sep : ascii) (allow : bool) (segs : list string) :
  forall stack,
    Forall (fun seg => Str.all (differs sep) seg = true) segs ->
    Forall (fun seg => Str.all (differs sep) seg = true) stack ->
    Forall (fun seg => Str.all (differs sep) seg = true) (Path.normalize allow segs stack).
Proof.
  induction segs as [|s rest IH]; intros stack Hsegs Hstack; simpl.
  - now apply Forall_rev.
  - apply Forall_cons in Hsegs as [Hs Hrest].
    destruct (bool_decide (s = "") || bool_decide (s = ".")); [now apply IH|].
    destruct (bool_decide (s = "..")).
    + destruct stack as [|top below].
      * destruct allow; apply IH; auto.
      * pose proof Hstack as Hstack'. apply Forall_cons in Hstack' as [_ Hbelow].
        destruct (bool_decide (top = "..")); apply IH; auto.
    + apply IH; auto.
Qed.

(** Splitting a joined list gives the list back when no segment contains the
    separator. *)
Lemma split_join (sep : ascii) (segs : list string) :
  segs <> [] ->
  Forall (fun seg => Str.all (differs sep) seg = true) segs ->
  Str.split sep (Str.join (String sep "") segs) = segs.
Proof.
  induction segs as [|s rest IH]; [congruence|]. intros _ Hall.
  apply Forall_cons in Hall as [Hs Hrest].
  destruct rest as [|s' rest'].
  - simpl. now apply split_without.
  - change (Str.join (String sep "") (s :: s' :: rest'))
      with (s +:+ String sep "" +:+ Str.join (String sep "") (s' :: rest')).
    change (String sep "" +:+ ?x) with (String sep x).
    rewrite split_append by assumption. f_equal. now apply IH.
Qed.

Lemma prepend_absolute (args : list string) (acc : string) :
  Exists (fun p => Path.isAbsolute p = true) args ->
  snd (Path.prepend args acc) = true.
Proof.
  revert acc. induction args as [|p rest IH]; intros acc Hex.
  - now apply Exists_nil in Hex.
  - simpl. destruct (Str.is_empty p) eqn:Ee.
    + apply IH. apply Exists_cons in Hex as [Hp | Hrest]; [|assumption].
      destruct p; [discriminate Hp | discriminate Ee].
    + destruct (Path.isAbsolute p) eqn:Ea; [reflexivity|].
      apply IH. apply Exists_cons in Hex as [Hp | Hrest]; [congruence | assumption].
Qed.

(** In a process whose working directory is absolute, [path.resolve] returns
    an absolute path whose segments are free of empty, [.] and [..]
    segments. *)
Lemma resolve_normalized (cwd : string) (args : list string) :
  Path.isAbsolute cwd = true ->
  Path.resolve cwd args = "/"
  \/ exists segs,
       segs <> [] /\ Forall plainSegment segs
       /\ Path.resolve cwd args = "/" +:+ Str.join "/" segs
       /\ Str.split "/" (Path.resolve cwd args) = "" :: segs.
Proof.
  intros Habs. unfold Path.resolve.
  assert (Hp : snd (Path.prepend (rev (cwd :: args)) "") = true).
  { apply prepend_absolute, Exists_exists. exists cwd. split; [|assumption].
    apply list_elem_of_In. rewrite <- in_rev. now left. }
  destruct (Path.prepend (rev (cwd :: args)) "") as [resolvedPath resolvedAbsolute].
  simpl in Hp. subst resolvedAbsolute. simpl negb.
  pose proof (normalize_plain (Str.split "/" resolvedPath) [] (Forall_nil_2 _)) as Hplain.
  pose proof (normalize_no_sep "/" false (Str.split "/" resolvedPath) []
                (split_segments_no_sep "/" resolvedPath) (Forall_nil_2 _)) as Hsep.
  destruct (Path.normalize false (Str.split "/" resolvedPath) []) as [|s rest] eqn:E.
  - left. reflexivity.
  - right. exists (s :: rest). split; [discriminate|]. split; [assumption|].
    split; [reflexivity|].
    change ("/" +:+ ?x) with (String "/" x).
    change (String "/" ?x) with ("" +:+ String "/" x).
    rewrite split_append by reflexivity. f_equal.
    apply split_join; [discriminate | assumption].
Qed.

(** A directory accepted by [safeJoin] is absolute, has the resolved root as
    a string prefix, and contains no [.] or [..] segment: traversal sequences
    never reach the shell's working directory. *)
Theorem safeJoin_normalized (env : processEnv) (root userPath resolved : string) :
  Path.isAbsolute (process_cwd env) = true ->
  safeJoin env root userPath = Return resolved ->
  Path.isAbsolute resolved = true
  /\ Str.startsWith resolved (Path.resolve (process_cwd env) [root]) = true
  /\ forall seg, In seg (Str.split "/" resolved) -> seg <> "." /\ seg <> "..".
Proof.
  intros Habs. unfold safeJoin.
  destruct (Str.startsWith _ _) eqn:Ep; simpl; [|discriminate].
  intros [= <-].
  destruct (resolve_normalized (process_cwd env) [root; userPath] Habs)
    as [Heq | (segs & _ & Hplain & Heq & Hsplit)].
  - rewrite Heq in *. split; [reflexivity|]. split; [assumption|].
    intros seg [<- | [<- | []]]; split; discriminate.
  - split; [now rewrite Heq|]. split; [assumption|].
    rewrite Hsplit. intros seg [<- | Hin]; [split; discriminate|].
    rewrite Forall_forall in Hplain. apply list_elem_of_In, Hplain in Hin.
    destruct Hin as (_ & H1 & H2). now split.
Qed.

Lemma safeJoin_normalized_witness :
  Path.isAbsolute "/home/user/projects/b" = true.
Proof.
  apply (safeJoin_normalized devEnv "/home/user" "projects/./a/../b"
           "/home/user/projects/b"); reflexivity.
Defined.


(** ** Session store *)

(** The loops over clients touch sockets only. *)
Lemma closeClients_frame (cs : list nat) (st : server) :
  sessions (closeClients cs st) = sessions st
  /\ objects (closeClients cs st) = objects st
  /\ ptys (closeClients cs st) = ptys st
  /\ contextStore (closeClients cs st) = contextStore st
  /\ contextRequestTimes (closeClients cs st) = contextRequestTimes st
  /\ length (sockets (closeClients cs st)) = length (sockets st).
Proof.
  revert st. induction cs as [|c cs IH]; intros st; simpl; [repeat split|].
  destruct (IH (if isOpen st c then wsClose c st else st)) as (-> & -> & -> & -> & -> & ->).
  destruct (isOpen st c); simpl; repeat split. apply length_alter.
Qed.

Lemma notifyExit_frame (msg : wsMessage) (cs : list nat) (st : server) :
  sessions (notifyExit msg cs st) = sessions st
  /\ objects (notifyExit msg cs st) = objects st
  /\ ptys (notifyExit msg cs st) = ptys st
  /\ contextStore (notifyExit msg cs st) = contextStore st
  /\ contextRequestTimes (notifyExit msg cs st) = contextRequestTimes st
  /\ length (sockets (notifyExit msg cs st)) = length (sockets st).
Proof.
  revert st. induction cs as [|c cs IH]; intros st; simpl; [repeat split|].
  destruct (IH (if isOpen st c then wsClose c (wsSend c msg st) else st))
    as (-> & -> & -> & -> & -> & ->).
  destruct (isOpen st c); simpl; repeat split. now rewrite !length_alter.
Qed.

Lemma broadcast_frame (msg : wsMessage) (cs : list nat) (st : server) :
  sessions (broadcast msg cs st) = sessions st
  /\ objects (broadcast msg cs st) = objects st
  /\ ptys (broadcast msg cs st) = ptys st
  /\ contextStore (broadcast msg cs st) = contextStore st
  /\ contextRequestTimes (broadcast msg cs st) = contextRequestTimes st
  /\ length (sockets (broadcast msg cs st)) = length (sockets st).
Proof.
  revert st. induction cs as [|c cs IH]; intros st; simpl; [repeat split|].
  destruct (IH (if isOpen st c then wsSend c msg st else st))
    as (-> & -> & -> & -> & -> & ->).
  destruct (isOpen st c); simpl; repeat split. apply length_alter.
Qed.

Lemma killsOf_ptyKill (h h' : nat) (st : server) :
  killsOf (ptyKill h st) h'
  = if bool_decide (h = h' /\ (h < length (ptys st))%nat)
    then S (killsOf st h') else killsOf st h'.
Proof.
  unfold killsOf, ptyKill. simpl.
  destruct (decide (h = h')) as [<- | Hne].
  - rewrite list_lookup_alter_eq.
    destruct (ptys st !! h) as [p|] eqn:E; simpl.
    + apply lookup_lt_Some in E. now rewrite bool_decide_eq_true_2.
    + apply lookup_ge_None_1 in E. rewrite bool_decide_eq_false_2; [reflexivity | lia].
  - rewrite list_lookup_alter_ne by assumption.
    rewrite bool_decide_eq_false_2; [reflexivity | tauto].
Qed.

Lemma idle_objects (cfg : config) (now : Z) (st st' : server) (e : string * nat) :
  objects st' = objects st -> idle cfg now st' e = idle cfg now st e.
Proof. unfold idle. now intros ->. Qed.

Lemma delete_middle {V} (k : string) (v : V) (pre rest : list (string * V)) :
  NoDup (JsMap.keys (pre ++ (k, v) :: rest)) ->
  JsMap.delete k (pre ++ (k, v) :: rest) = pre ++ rest.
Proof.
  intros Hnd. rewrite keys_app in Hnd. simpl in Hnd.
  apply NoDup_app in Hnd as (_ & Hdisj & [Hid _]%NoDup_cons).
  rewrite delete_app. simpl. rewrite bool_decide_eq_true_2 by reflexivity.
  rewrite !delete_absent; [reflexivity| |].
  - now rewrite <- list_elem_of_In.
  - intros Hin%list_elem_of_In. apply (Hdisj k Hin). left.
Qed.

Lemma NoDup_keys_drop {V} (e : string * V) (pre rest : list (string * V)) :
  NoDup (JsMap.keys (pre ++ e :: rest)) -> NoDup (JsMap.keys (pre ++ rest)).
Proof.
  rewrite !keys_app. simpl. intros (Hpre & Hdisj & [_ Hrest]%NoDup_cons)%NoDup_app.
  apply NoDup_app. repeat split; [assumption| |assumption].
  intros x Hx Hx'. apply (Hdisj x Hx). now right.
Qed.

Lemma sweep_spec (cfg : config) (now : Z) (entries : list (string * nat)) :
  forall pre st,
    sessions st = pre ++ entries ->
    NoDup (JsMap.keys (pre ++ entries)) ->
    let st' := sweep cfg now entries st in
    sessions st' = pre ++ List.filter (fun e => negb (idle cfg now st e)) entries
    /\ objects st' = objects st
    /\ sockets st' = sockets st
    /\ contextStore st' = contextStore st
    /\ contextRequestTimes st' = contextRequestTimes st
    /\ length (ptys st') = length (ptys st)
    /\ (forall h, (killsOf st h <= killsOf st' h)%nat)
    /\ (forall sid ref s,
          In (sid, ref) entries -> objects st !! ref = Some s ->
          idle cfg now st (sid, ref) = true -> (pty s < length (ptys st))%nat ->
          (killsOf st (pty s) < killsOf st' (pty s))%nat).
Proof.
  induction entries as [|[sid ref] rest IH]; intros pre st Hs Hnd; cbv zeta.
  - simpl. rewrite app_nil_r in *. repeat split; try assumption; try lia.
  - simpl sweep. simpl List.filter. unfold idle at 1. simpl snd.
    destruct (objects st !! ref) as [s|] eqn:Eo.
    + destruct (SESSION_TIMEOUT cfg <? now - lastSeen s) eqn:Ei; simpl negb; cbv iota.
      * set (st1 := with_sessions (JsMap.delete sid) (ptyKill (pty s) st)).
        assert (Hs1 : sessions st1 = pre ++ rest).
        { unfold st1. simpl. rewrite Hs. now apply delete_middle. }
        assert (Ho1 : objects st1 = objects st) by reflexivity.
        destruct (IH pre st1 Hs1 (NoDup_keys_drop _ _ _ Hnd))
          as (Hsess & Hobj & Hsock & Hcs & Hcr & Hlen & Hmono & Hkill).
        assert (Hk1 : forall h, (killsOf st h <= killsOf st1 h)%nat).
        { intros h. unfold st1.
          change (killsOf (with_sessions (JsMap.delete sid) (ptyKill (pty s) st)) h)
            with (killsOf (ptyKill (pty s) st) h).
          rewrite killsOf_ptyKill. destruct (bool_decide _); lia. }
        split; [|split; [|split; [|split; [|split; [|split; [|split]]]]]].
        -- rewrite Hsess. reflexivity.
        -- now rewrite Hobj.
        -- now rewrite Hsock.
        -- now rewrite Hcs.
        -- now rewrite Hcr.
        -- rewrite Hlen. unfold st1. simpl. apply length_alter.
        -- intros h. specialize (Hmono h). specialize (Hk1 h). lia.
        -- intros sid' ref' s' [[= <- <-] | Hin] Ho Hidle Hlt.
           ++ rewrite Eo in Ho. injection Ho as <-.
              specialize (Hmono (pty s)).
              assert ((killsOf st (pty s) < killsOf st1 (pty s))%nat); [|lia].
              unfold st1.
              change (killsOf (with_sessions (JsMap.delete sid) (ptyKill (pty s) st)) (pty s))
                with (killsOf (ptyKill (pty s) st) (pty s)).
              rewrite killsOf_ptyKill, bool_decide_eq_true_2 by (split; [reflexivity | assumption]).
              lia.
           ++ specialize (Hk1 (pty s')).
              assert ((killsOf st1 (pty s') < killsOf (sweep cfg now rest st1) (pty s'))%nat); [|lia].
              apply (Hkill sid' ref' s' Hin).
              ** now rewrite Ho1.
              ** now rewrite (idle_objects cfg now st st1).
              ** unfold st1. simpl. now rewrite length_alter.
      * change (pre ++ (sid, ref) :: List.filter (fun e => negb (idle cfg now st e)) rest)
          with (pre ++ [(sid, ref)] ++ List.filter (fun e => negb (idle cfg now st e)) rest).
        rewrite app_assoc.
        assert (Hs' : sessions st = (pre ++ [(sid, ref)]) ++ rest) by now rewrite <- app_assoc.
        assert (Hnd' : NoDup (JsMap.keys ((pre ++ [(sid, ref)]) ++ rest)))
          by now rewrite <- app_assoc.
        destruct (IH (pre ++ [(sid, ref)]) st Hs' Hnd')
          as (Hsess & Hobj & Hsock & Hcs & Hcr & Hlen & Hmono & Hkill).
        repeat split; try assumption.
        intros sid' ref' s' [[= <- <-] | Hin] Ho Hidle Hlt.
        -- unfold idle in Hidle. simpl in Hidle. rewrite Eo in Hidle. congruence.
        -- now apply (Hkill sid' ref' s').
    + simpl negb. cbv iota.
      change (pre ++ (sid, ref) :: List.filter (fun e => negb (idle cfg now st e)) rest)
        with (pre ++ [(sid, ref)] ++ List.filter (fun e => negb (idle cfg now st e)) rest).
      rewrite app_assoc.
      assert (Hs' : sessions st = (pre ++ [(sid, ref)]) ++ rest) by now rewrite <- app_assoc.
      assert (Hnd' : NoDup (JsMap.keys ((pre ++ [(sid, ref)]) ++ rest)))
        by now rewrite <- app_assoc.
      destruct (IH (pre ++ [(sid, ref)]) st Hs' Hnd')
        as (Hsess & Hobj & Hsock & Hcs & Hcr & Hlen & Hmono & Hkill).
      repeat split; try assumption.
      intros sid' ref' s' [[= <- <-] | Hin] Ho Hidle Hlt.
      * congruence.
      * now apply (Hkill sid' ref' s').
Qed.



(** ** The invariant of the session store *)

Lemma NoDup_map_filter {A B} (f : A -> B) (p : A -> bool) (l : list A) :
  NoDup (List.map f l) -> NoDup (List.map f (List.filter p l)).
Proof.
  induction l as [|x l IH]; simpl; [trivial|].
  intros [Hx Hnd]%NoDup_cons.
  destruct (p x); simpl; [|now apply IH].
  apply NoDup_cons. split; [|now apply IH].
  rewrite list_elem_of_In in *. intros Hin. apply Hx.
  apply in_map_iff in Hin as (y & Hy & Hin).
  apply in_map_iff. exists y. split; [assumption|].
  now apply List.filter_In in Hin as [Hin _].
Qed.

Lemma storeInv_same (st st' : server) :
  sessions st' = sessions st -> length (objects st') = length (objects st) ->
  storeInv st -> storeInv st'.
Proof. unfold storeInv. intros -> ->. trivial. Qed.

Lemma storeInv_filter (p : string * nat -> bool) (st st' : server) :
  sessions st' = List.filter p (sessions st) ->
  length (objects st') = length (objects st) ->
  storeInv st -> storeInv st'.
Proof.
  unfold storeInv. intros -> -> (Hk & Hv & Hall). split; [|split].
  - now apply NoDup_keys_filter.
  - now apply NoDup_map_filter.
  - intros sid ref Hin. apply List.filter_In in Hin as [Hin _]. now apply Hall.
Qed.

Lemma storeInv_delete (k : string) (st st' : server) :
  sessions st' = JsMap.delete k (sessions st) ->
  length (objects st') = length (objects st) ->
  storeInv st -> storeInv st'.
Proof. rewrite delete_filter. apply storeInv_filter. Qed.

Lemma In_set {V} (k j : string) (v w : V) (m : list (string * V)) :
  In (j, w) (JsMap.set k v m) -> (j = k /\ w = v) \/ In (j, w) m.
Proof.
  induction m as [|[k' v'] m IH]; simpl.
  - intros [[= <- <-] | []]. now left.
  - destruct (bool_decide (k' = k)); simpl.
    + intros [[= <- <-] | Hin]; [now left | right; now right].
    + intros [Heq | Hin]; [right; now left|].
      destruct (IH Hin) as [? | ?]; [now left | right; now right].
Qed.

Lemma NoDup_vals_set (k : string) (v : nat) (m : list (string * nat)) :
  NoDup (List.map snd m) -> ~ In v (List.map snd m) ->
  NoDup (List.map snd (JsMap.set k v m)).
Proof.
  induction m as [|[k' v'] m IH]; simpl; intros Hnd Hv.
  - apply NoDup_cons. split; [apply not_elem_of_nil | apply NoDup_nil_2].
  - apply NoDup_cons in Hnd as [Hv' Hnd].
    destruct (bool_decide (k' = k)); simpl; apply NoDup_cons.
    + split; [rewrite list_elem_of_In; tauto | assumption].
    + split; [|apply IH; tauto].
      rewrite list_elem_of_In in *. intros Hin. apply in_map_iff in Hin as ([j w] & Hw & Hin).
      simpl in Hw. subst w. apply In_set in Hin as [[_ ->] | Hin]; [tauto|].
      apply Hv'. apply in_map_iff. now exists (j, v').
Qed.

Lemma storeInv_createSession (cfg : config) (env : processEnv) (now : Z)
    (sid : string) (cwd name : option string) (st : server) :
  sid <> "" -> storeInv st ->
  storeInv (fst (createSession cfg env now sid cwd name st)).
Proof.
  intros Hsid (Hk & Hv & Hall). unfold storeInv, createSession. simpl.
  split; [now apply NoDup_keys_set|]. split.
  - apply NoDup_vals_set; [assumption|].
    intros Hin. apply in_map_iff in Hin as ([j w] & Hw & Hin). simpl in Hw. subst w.
    destruct (Hall _ _ Hin) as [_ Hlt]. lia.
  - intros j w Hin. rewrite length_app. simpl.
    apply In_set in Hin as [[-> ->] | Hin]; [split; [assumption | lia]|].
    destruct (Hall _ _ Hin). split; [assumption | lia].
Qed.

Lemma generateSid_nonempty (rb : list ascii) : rb <> [] -> generateSid rb <> "".
Proof. destruct rb; [congruence | discriminate]. Qed.

Lemma storeInv_ptyStart (cfg : config) (env : processEnv) (amb : ambient)
    (req : httpRequest) (st : server) :
  randomBytes16 amb <> [] -> storeInv st -> storeInv (fst (ptyStart cfg env amb req st)).
Proof.
  intros Hrb Hinv. unfold ptyStart.
  destruct (if falsy (strField "sid" (req_body req)) then None
            else getSession st (default "" (strField "sid" (req_body req))))
    as [[ref s]|]; simpl.
  - eapply storeInv_same; [| |exact Hinv]; simpl; [reflexivity | apply length_insert].
  - apply storeInv_createSession; [|assumption].
    destruct (strField "sid" (req_body req)) as [[|c sid]|]; simpl;
      try discriminate; now apply generateSid_nonempty.
Qed.

Lemma storeInv_ptyClose (req : httpRequest) (st : server) :
  storeInv st -> storeInv (fst (ptyClose req st)).
Proof.
  intros Hinv. unfold ptyClose.
  destruct (qfalsy (JsMap.get "sid" (req_query req))); [assumption|].
  destruct (match JsMap.get "sid" (req_query req) with
            | Some (QStr s) => getSession st s
            | _ => None
            end) as [[ref s]|]; [|assumption]. simpl.
  destruct (closeClients_frame (clients s) st) as (Hs & Ho & _).
  eapply storeInv_delete; [| |exact Hinv]; simpl; [now rewrite Hs | now rewrite Ho].
Qed.

Lemma storeInv_cleanup (cfg : config) (now : Z) (st : server) :
  storeInv st -> storeInv (cleanupIdleSessions cfg now st).
Proof.
  intros Hinv. pose proof Hinv as (Hk & _). unfold cleanupIdleSessions.
  destruct (sweep_spec cfg now (sessions st) [] st eq_refl Hk) as (Hs & Ho & _).
  simpl in Hs.
  eapply storeInv_filter; [exact Hs | now rewrite Ho | exact Hinv].
Qed.

Lemma storeInv_onExit (h : nat) (exitCode : Z) (st : server) :
  storeInv st -> storeInv (onExit h exitCode st).
Proof.
  intros Hinv. unfold onExit. destruct (ptys st !! h) as [p|]; [|assumption].
  match goal with |- context [notifyExit ?m ?cs st] =>
    destruct (notifyExit_frame m cs st) as (Hs & Ho & _) end.
  eapply storeInv_delete; [| |exact Hinv]; unfold with_sessions; cbn [sessions objects];
    [now rewrite Hs | now rewrite Ho].
Qed.

Lemma storeInv_onUpgrade (cfg : config) (now : Z) (req : upgradeRequest) (st : server) :
  storeInv st -> storeInv (fst (onUpgrade cfg now req st)).
Proof.
  intros Hinv. unfold onUpgrade.
  destruct (bool_decide _); [|assumption].
  destruct (JsMap.get "sid" (up_query req)) as [sidv|]; [|assumption].
  destruct (JsMap.get "token" (up_query req)) as [tokenv|]; [|assumption].
  destruct (qfalsy (Some sidv) || qfalsy (Some tokenv)); [assumption|].
  destruct (verifyTokenQ cfg now sidv tokenv) as [[|]|]; try assumption.
  destruct (up_handshake req); [|assumption].
  unfold onConnection.
  destruct (match sidv with QStr s => getSession _ s | QArr _ => None end) as [[ref s]|];
    simpl; (eapply storeInv_same; [| |exact Hinv]); simpl;
    try reflexivity. apply length_insert.
Qed.

Lemma storeInv_onData (h : nat) (now : Z) (data : string) (st : server) :
  storeInv st -> storeInv (onData h now data st).
Proof.
  intros Hinv. unfold onData. destruct (ptys st !! h) as [p|]; [|assumption].
  destruct (objects st !! captured_session p) as [s|]; [|assumption].
  match goal with |- context [broadcast ?m ?cs ?st0] =>
    destruct (broadcast_frame m cs st0) as (Hs & Ho & _) end.
  eapply storeInv_same; [| |exact Hinv]; [now rewrite Hs|].
  rewrite Ho. simpl. apply length_insert.
Qed.

Lemma onMessage_store (ref : nat) (now : Z) (parsed : option json) (st : server) :
  sessions (fst (onMessage ref now parsed st)) = sessions st
  /\ length (objects (fst (onMessage ref now parsed st))) = length (objects st)
  /\ ptys (fst (onMessage ref now parsed st)) = ptys st
  /\ sockets (fst (onMessage ref now parsed st)) = sockets st.
Proof.
  unfold onMessage.
  destruct parsed as [msg|]; [|repeat split].
  destruct (objects st !! ref) as [s|]; [|repeat split].
  destruct (prop "type" msg) as [[| | |t| |]|]; simpl;
    try (repeat split; apply length_insert).
  destruct (bool_decide (t = "input")).
  - destruct (prop "data" msg) as [[| | |d| |]|]; simpl; repeat split; apply length_insert.
  - destruct (bool_decide (t = "resize")); [|simpl; repeat split; apply length_insert].
    destruct (prop "cols" msg) as [[| |c| | |]|]; simpl;
      try (repeat split; apply length_insert).
    destruct (prop "rows" msg) as [[| |r| | |]|]; simpl; repeat split; apply length_insert.
Qed.

Lemma storeInv_onSocketClose (ref ws : nat) (st : server) :
  storeInv st -> storeInv (onSocketClose ref ws st).
Proof.
  intros Hinv. unfold onSocketClose. simpl.
  destruct (objects st !! ref) as [s|]; (eapply storeInv_same; [| |exact Hinv]); simpl;
    try reflexivity. apply length_insert.
Qed.

Lemma storeInv_handle (cfg : config) (env : processEnv) (amb : ambient)
    (req : httpRequest) (st : server) :
  randomBytes16 amb <> [] -> storeInv st -> storeInv (fst (handle cfg env amb req st)).
Proof.
  intros Hrb Hinv. unfold handle.
  assert (Hrouted :
    storeInv (fst match dispatch routes (req_method req) (req_pathname req) false with
                  | Routed PtyStart _ => ptyStart cfg env amb req st
                  | Routed PtyClose _ => ptyClose req st
                  | Routed ContextPush ps => contextPush amb (param "embedId" ps) req st
                  | Routed ContextRequests _ => contextRequests amb st
                  | Routed ContextPull ps => contextPull (param "embedId" ps) st
                  | Routed ContextRequest ps => contextRequest amb (param "embedId" ps) st
                  | Routed Health _ => health amb st
                  | BadRequest => (st, HttpResponse 400 (JStr "Bad Request"))
                  | NotFound => (st, HttpResponse 404 (JStr "Not Found"))
                  end)).
  { destruct (dispatch routes (req_method req) (req_pathname req) false) as [[] ps| |];
      try assumption.
    - now apply storeInv_ptyStart.
    - now apply storeInv_ptyClose.
    - unfold contextPush. destruct (isArray _); assumption.
    - unfold contextRequests. destruct (listPendingRequests _ _). assumption.
    - unfold contextPull. destruct (JsMap.get _ _); assumption. }
  destruct (req_method req); assumption.
Qed.

(** Every event of the loop keeps the invariant of the session store. *)
Lemma storeInv_step (cfg : config) (env : processEnv) (amb : ambient) (ev : event)
    (st : server) :
  randomBytes16 amb <> [] -> storeInv st -> storeInv (step cfg env amb ev st).
Proof.
  intros Hrb Hinv. destruct ev; simpl.
  - now apply storeInv_handle.
  - now apply storeInv_onUpgrade.
  - now apply storeInv_cleanup.
  - now apply storeInv_onData.
  - now apply storeInv_onExit.
  - destruct (onMessage_store ref (now amb) parsed st) as (Hs & Ho & _).
    eapply storeInv_same; eassumption.
  - now apply storeInv_onSocketClose.
  - unfold onSigterm, storeInv. simpl. split; [apply NoDup_nil_2|].
    split; [apply NoDup_nil_2 | intros ? ? []].
Qed.

(** In every state the server reaches from its initial state, the session
    map has one entry per id, no entry for the empty id, and its entries
    refer to distinct, allocated session objects, provided the random source
    never returns an empty buffer. *)
Theorem storeInv_reachable (cfg : config) (env : processEnv)
    (evs : list (ambient * event)) :
  Forall (fun e => randomBytes16 (fst e) <> []) evs ->
  storeInv (run cfg env evs emptyServer).
Proof.
  assert (Hgen : forall st, storeInv st ->
            Forall (fun e => randomBytes16 (fst e) <> []) evs ->
            storeInv (run cfg env evs st)).
  { induction evs as [|[amb ev] rest IH]; intros st Hinv Hall; simpl; [assumption|].
    apply Forall_cons in Hall as [Hrb Hrest].
    apply IH; [|assumption]. now apply storeInv_step. }
  intros Hall. apply Hgen; [|assumption].
  unfold storeInv. simpl. split; [apply NoDup_nil_2|].
  split; [apply NoDup_nil_2 | intros ? ? []].
Qed.

Lemma storeInv_reachable_witness :
  storeInv
    (run devConfig devEnv
       [ (Ambient 1000 (repeat "001"%char 16) (Finite 1),
          Http (HttpRequest POST "/api/pty/start" [] (JObj [("sid", JStr "board-1")])
                  false (Some "localhost:3001")));
         (Ambient 3700000 (repeat "002"%char 16) (Finite 2), SweepTick) ]
       emptyServer).
Proof.
  apply (storeInv_reachable devConfig devEnv).
  repeat (apply Forall_cons; split; [discriminate|]). apply Forall_nil_2.
Defined.

(** ** Closing a session *)

Lemma isOpen_wsClose (c c' : nat) (st : server) :
  isOpen (wsClose c st) c' = if bool_decide (c = c') then false else isOpen st c'.
Proof.
  unfold isOpen, wsClose. simpl.
  destruct (decide (c = c')) as [<- | Hne].
  - rewrite bool_decide_eq_true_2 by reflexivity. rewrite list_lookup_alter_eq.
    destruct (sockets st !! c); reflexivity.
  - rewrite bool_decide_eq_false_2 by assumption.
    now rewrite list_lookup_alter_ne.
Qed.

Lemma closeClients_keeps_closed (cs : list nat) (c : nat) (st : server) :
  isOpen st c = false -> isOpen (closeClients cs st) c = false.
Proof.
  revert st. induction cs as [|c0 cs IH]; intros st H; simpl; [assumption|].
  apply IH. destruct (isOpen st c0); [|assumption].
  rewrite isOpen_wsClose. destruct (bool_decide (c0 = c)); [reflexivity | assumption].
Qed.

Lemma closeClients_closes (cs : list nat) (c : nat) (st : server) :
  In c cs -> isOpen (closeClients cs st) c = false.
Proof.
  revert st. induction cs as [|c0 cs IH]; intros st; simpl; [tauto|].
  intros [-> | Hin]; [|now apply IH].
  apply closeClients_keeps_closed.
  destruct (isOpen st c) eqn:E; [|assumption].
  rewrite isOpen_wsClose. now rewrite bool_decide_eq_true_2.
Qed.

Lemma closeClients_others (cs : list nat) (c : nat) (st : server) :
  ~ In c cs -> sockets (closeClients cs st) !! c = sockets st !! c.
Proof.
  revert st. induction cs as [|c0 cs IH]; intros st Hnin; simpl; [reflexivity|].
  simpl in Hnin. rewrite IH by tauto.
  destruct (isOpen st c0); [|reflexivity].
  unfold wsClose. simpl. apply list_lookup_alter_ne. tauto.
Qed.

(** Closing an existing session answers success, removes its entry and no
    other, leaves no client of the session open, sends the process one kill,
    and does not touch the sockets of other sessions. *)
Theorem ptyClose_spec (req : httpRequest) (st : server) (sid : string) (ref : nat)
    (s : session) :
  JsMap.get "sid" (req_query req) = Some (QStr sid) ->
  sid <> "" ->
  getSession st sid = Some (ref, s) ->
  (pty s < length (ptys st))%nat ->
  let st' := fst (ptyClose req st) in
  snd (ptyClose req st) = HttpResponse 200 (JObj [("success", JBool true)])
  /\ JsMap.get sid (sessions st') = None
  /\ (forall other, other <> sid ->
        JsMap.get other (sessions st') = JsMap.get other (sessions st))
  /\ (forall c, In c (clients s) -> isOpen st' c = false)
  /\ (forall c, ~ In c (clients s) -> sockets st' !! c = sockets st !! c)
  /\ killsOf st' (pty s) = S (killsOf st (pty s))
  /\ objects st' = objects st.
Proof.
  intros Hq Hsid Hget Hpty. cbv zeta. unfold ptyClose. rewrite Hq.
  assert (Hf : qfalsy (Some (QStr sid)) = false) by (destruct sid; [congruence | reflexivity]).
  rewrite Hf, Hget. cbn [fst snd].
  destruct (closeClients_frame (clients s) st) as (Hs & Ho & Hp & _).
  split; [reflexivity|]. split; [|split; [|split; [|split; [|split]]]].
  - simpl. apply get_delete_eq.
  - intros other Hne. simpl. rewrite get_delete_ne by congruence. now rewrite Hs.
  - intros c Hin. unfold isOpen. simpl. now apply closeClients_closes.
  - intros c Hnin. simpl. now apply closeClients_others.
  - change (killsOf (with_sessions (JsMap.delete sid) (ptyKill (pty s) (closeClients (clients s) st)))
              (pty s))
      with (killsOf (ptyKill (pty s) (closeClients (clients s) st)) (pty s)).
    rewrite killsOf_ptyKill, Hp, bool_decide_eq_true_2 by (split; [reflexivity | assumption]).
    unfold killsOf. now rewrite Hp.
  - simpl. assumption.
Qed.

Lemma ptyClose_spec_witness :
  JsMap.get "board-1"
    (sessions (fst (ptyClose (HttpRequest DELETE "/api/pty/close" [("sid", QStr "board-1")]
                                (JObj []) false None) scenarioAttached)))
  = None.
Proof.
  destruct (ptyClose_spec (HttpRequest DELETE "/api/pty/close" [("sid", QStr "board-1")]
                             (JObj []) false None)
              scenarioAttached "board-1" 0%nat (Session 0 [0%nat] 2000 "terminal"))
    as (_ & H & _).
  - reflexivity.
  - discriminate.
  - vm_compute. reflexivity.
  - vm_compute. lia.
  - exact H.
Defined.

(** Closing is idempotent: a second identical close request never finds the
    session (it is answered 404, or 400 when the sid is missing) and leaves
    the state of the first close unchanged. *)
Theorem ptyClose_idempotent (req : httpRequest) (st : server) :
  let st1 := fst (ptyClose req st) in
  fst (ptyClose req st1) = st1
  /\ (status (snd (ptyClose req st1)) = 404 \/ status (snd (ptyClose req st1)) = 400).
Proof.
  cbv zeta. unfold ptyClose.
  destruct (qfalsy (JsMap.get "sid" (req_query req))) eqn:Hf.
  - cbn [fst snd status]. split; [reflexivity | now right].
  - destruct (JsMap.get "sid" (req_query req)) as [[sid|items]|]; try discriminate.
    + destruct (getSession st sid) as [[ref s]|] eqn:G; cbn [fst snd].
      * assert (Hnone : forall st0, getSession (with_sessions (JsMap.delete sid) st0) sid = None).
        { intros st0. unfold getSession. cbn [sessions with_sessions].
          now rewrite get_delete_eq. }
        rewrite !Hnone. cbn [fst snd status]. split; [reflexivity | now left].
      * rewrite G. cbn [fst snd status]. split; [reflexivity | now left].
    + cbn [fst snd status]. split; [reflexivity | now left].
Qed.

(** ** Process exit *)








(** ** Session objects and their processes *)

Lemma sameShape_refl (st : server) : sameShape st st.
Proof. split; reflexivity. Qed.

Lemma sameShape_trans (a b c : server) : sameShape a b -> sameShape b c -> sameShape a c.
Proof.
  intros [Ho Hp] [Ho' Hp']. split; intros i; [now rewrite Ho', Ho | now rewrite Hp', Hp].
Qed.

Lemma sameShape_eq (st st' : server) :
  objects st' = objects st -> ptys st' = ptys st -> sameShape st st'.
Proof. intros Ho Hp. split; intros i; [now rewrite Ho | now rewrite Hp]. Qed.

Lemma ptyInv_shape (st st' : server) : sameShape st st' -> ptyInv st -> ptyInv st'.
Proof.
  intros [Ho Hp] Hinv ref s' Hs'.
  specialize (Ho ref). rewrite Hs' in Ho. simpl in Ho.
  destruct (objects st !! ref) as [s|] eqn:Es; [|discriminate].
  injection Ho as Ho. destruct (Hinv ref s Es) as (p & Hlookup & Hcap).
  specialize (Hp (pty s)). rewrite Hlookup in Hp. simpl in Hp.
  rewrite Ho. destruct (ptys st' !! pty s) as [p'|]; [|discriminate].
  injection Hp as Hp. exists p'. split; [reflexivity | congruence].
Qed.

Lemma shape_insert (st : server) (ref : nat) (s s' : session) :
  objects st !! ref = Some s -> pty s' = pty s ->
  sameShape st (with_objects (<[ref := s']>) st).
Proof.
  intros Hs Hpty. split; [|reflexivity]. intros j. simpl.
  destruct (decide (ref = j)) as [<- | Hne].
  - rewrite list_lookup_insert_eq by (now apply lookup_lt_Some in Hs).
    rewrite Hs. simpl. now rewrite Hpty.
  - now rewrite list_lookup_insert_ne.
Qed.

Lemma shape_ptyKill (h : nat) (st : server) : sameShape st (ptyKill h st).
Proof.
  split; [reflexivity|]. intros j. unfold ptyKill. simpl.
  destruct (decide (h = j)) as [<- | Hne].
  - rewrite list_lookup_alter_eq. destruct (ptys st !! h); reflexivity.
  - now rewrite list_lookup_alter_ne.
Qed.

Lemma shape_sweep (cfg : config) (now : Z) (entries : list (string * nat)) (st : server) :
  sameShape st (sweep cfg now entries st).
Proof.
  revert st. induction entries as [|[sid ref] rest IH]; intros st; simpl.
  - apply sameShape_refl.
  - destruct (objects st !! ref) as [s|]; [|apply IH].
    destruct (SESSION_TIMEOUT cfg <? now - lastSeen s); [|apply IH].
    eapply sameShape_trans; [|apply IH].
    eapply sameShape_trans; [apply (shape_ptyKill (pty s))|].
    now apply sameShape_eq.
Qed.

Lemma shape_killAll (entries : list (string * nat)) (st : server) :
  sameShape st (killAll entries st).
Proof.
  revert st. induction entries as [|[sid ref] rest IH]; intros st; simpl.
  - apply sameShape_refl.
  - destruct (objects st !! ref) as [s|]; [|apply IH].
    eapply sameShape_trans; [apply (shape_ptyKill (pty s)) | apply IH].
Qed.

Lemma ptyInv_createSession (cfg : config) (env : processEnv) (now : Z)
    (sid : string) (cwd name : option string) (st : server) :
  ptyInv st -> ptyInv (fst (createSession cfg env now sid cwd name st)).
Proof.
  intros Hinv ref s. unfold createSession. simpl. intros Hs.
  destruct (decide (ref < length (objects st))%nat) as [Hlt | Hge].
  - rewrite lookup_app_l in Hs by assumption.
    destruct (Hinv ref s Hs) as (p & Hp & Hcap).
    exists p. split; [|assumption].
    rewrite lookup_app_l; [assumption | now apply lookup_lt_Some in Hp].
  - assert (ref = length (objects st)) as ->.
    { apply lookup_lt_Some in Hs. rewrite length_app in Hs. simpl in Hs. lia. }
    rewrite list_lookup_middle in Hs by reflexivity. injection Hs as <-. simpl.
    eexists. split; [apply list_lookup_middle; reflexivity | reflexivity].
Qed.

Lemma shape_onMessage (ref : nat) (now : Z) (parsed : option json) (st : server) :
  sameShape st (fst (onMessage ref now parsed st)).
Proof.
  unfold onMessage.
  destruct parsed as [msg|]; [|apply sameShape_refl].
  destruct (objects st !! ref) as [s|] eqn:Es; [|apply sameShape_refl].
  assert (H : sameShape st (with_objects (<[ref := touch now s]>) st))
    by (now apply (shape_insert st ref s)).
  destruct (prop "type" msg) as [[| | |t| |]|]; simpl; try exact H.
  destruct (bool_decide (t = "input")).
  - destruct (prop "data" msg) as [[| | |d| |]|]; simpl; exact H.
  - destruct (bool_decide (t = "resize")); [|exact H].
    destruct (prop "cols" msg) as [[| |c| | |]|]; simpl; try exact H.
    destruct (prop "rows" msg) as [[| |r| | |]|]; simpl; exact H.
Qed.

Lemma ptyInv_handle (cfg : config) (env : processEnv) (amb : ambient)
    (req : httpRequest) (st : server) :
  ptyInv st -> ptyInv (fst (handle cfg env amb req st)).
Proof.
  intros Hinv. unfold handle.
  assert (Hrouted :
    ptyInv (fst match dispatch routes (req_method req) (req_pathname req) false with
                | Routed PtyStart _ => ptyStart cfg env amb req st
                | Routed PtyClose _ => ptyClose req st
                | Routed ContextPush ps => contextPush amb (param "embedId" ps) req st
                | Routed ContextRequests _ => contextRequests amb st
                | Routed ContextPull ps => contextPull (param "embedId" ps) st
                | Routed ContextRequest ps => contextRequest amb (param "embedId" ps) st
                | Routed Health _ => health amb st
                | BadRequest => (st, HttpResponse 400 (JStr "Bad Request"))
                | NotFound => (st, HttpResponse 404 (JStr "Not Found"))
                end)).
  { destruct (dispatch routes (req_method req) (req_pathname req) false) as [[] ps| |];
      try assumption.
    - unfold ptyStart.
      destruct (if falsy (strField "sid" (req_body req)) then None
                else getSession st (default "" (strField "sid" (req_body req))))
        as [[ref s]|] eqn:G; simpl.
      + destruct (falsy _); [discriminate|]. unfold getSession in G.
        destruct (JsMap.get _ (sessions st)) as [r|]; [|discriminate].
        destruct (objects st !! r) as [s0|] eqn:Es; [|discriminate].
        injection G as -> ->.
        eapply ptyInv_shape; [|exact Hinv]. now apply (shape_insert st ref s).
      + now apply ptyInv_createSession.
    - unfold ptyClose.
      destruct (qfalsy (JsMap.get "sid" (req_query req))); [assumption|].
      destruct (match JsMap.get "sid" (req_query req) with
                | Some (QStr s) => getSession st s
                | _ => None
                end) as [[ref s]|]; [|assumption]. simpl.
      destruct (closeClients_frame (clients s) st) as (_ & Ho & Hp & _).
      eapply ptyInv_shape; [|exact Hinv].
      eapply sameShape_trans; [apply (sameShape_eq _ _ Ho Hp)|].
      eapply sameShape_trans; [apply (shape_ptyKill (pty s))|].
      now apply sameShape_eq.
    - unfold contextPush. destruct (isArray _); assumption.
    - unfold contextRequests. destruct (listPendingRequests _ _). assumption.
    - unfold contextPull. destruct (JsMap.get _ _); assumption. }
  destruct (req_method req); assumption.
Qed.

Lemma ptyInv_onUpgrade (cfg : config) (now : Z) (req : upgradeRequest) (st : server) :
  ptyInv st -> ptyInv (fst (onUpgrade cfg now req st)).
Proof.
  intros Hinv. unfold onUpgrade.
  destruct (bool_decide _); [|assumption].
  destruct (JsMap.get "sid" (up_query req)) as [sidv|]; [|assumption].
  destruct (JsMap.get "token" (up_query req)) as [tokenv|]; [|assumption].
  destruct (qfalsy (Some sidv) || qfalsy (Some tokenv)); [assumption|].
  destruct (verifyTokenQ cfg now sidv tokenv) as [[|]|]; try assumption.
  destruct (up_handshake req); [|assumption].
  unfold onConnection.
  destruct (match sidv with QStr s => getSession _ s | QArr _ => None end)
    as [[ref s]|] eqn:G; simpl.
  - eapply ptyInv_shape; [|exact Hinv].
    assert (Hs : objects st !! ref = Some s).
    { destruct sidv as [k|]; [|discriminate]. unfold getSession in G. simpl in G.
      destruct (JsMap.get k (sessions st)) as [r|]; [|discriminate].
      destruct (objects st !! r) as [s0|] eqn:Es; [|discriminate].
      now injection G as -> ->. }
    eapply sameShape_trans;
      [apply (shape_insert st ref s (Session (pty s) (clients s ++ [length (sockets st)])
                                       now (name s)) Hs eq_refl)|].
    now apply sameShape_eq.
  - eapply ptyInv_shape; [|exact Hinv]. now apply sameShape_eq.
Qed.

Lemma ptyInv_onData (h : nat) (now : Z) (data : string) (st : server) :
  ptyInv st -> ptyInv (onData h now data st).
Proof.
  intros Hinv. unfold onData. destruct (ptys st !! h) as [p|]; [|assumption].
  destruct (objects st !! captured_session p) as [s|] eqn:Es; [|assumption].
  match goal with |- context [broadcast ?m ?cs ?st0] =>
    destruct (broadcast_frame m cs st0) as (_ & Ho & Hp & _) end.
  eapply ptyInv_shape; [|exact Hinv].
  eapply sameShape_trans; [apply (shape_insert st _ s (touch now s) Es eq_refl)|].
  now apply sameShape_eq.
Qed.

Lemma ptyInv_onExit (h : nat) (exitCode : Z) (st : server) :
  ptyInv st -> ptyInv (onExit h exitCode st).
Proof.
  intros Hinv. unfold onExit. destruct (ptys st !! h) as [p|]; [|assumption].
  match goal with |- context [notifyExit ?m ?cs st] =>
    destruct (notifyExit_frame m cs st) as (_ & Ho & Hp & _) end.
  eapply ptyInv_shape; [|exact Hinv]. now apply sameShape_eq.
Qed.

Lemma ptyInv_onSocketClose (ref ws : nat) (st : server) :
  ptyInv st -> ptyInv (onSocketClose ref ws st).
Proof.
  intros Hinv. unfold onSocketClose. simpl.
  destruct (objects st !! ref) as [s|] eqn:Es; (eapply ptyInv_shape; [|exact Hinv]).
  - eapply sameShape_trans;
      [apply (shape_insert st ref s (Session (pty s) (removeFirst ws (clients s))
                                       (lastSeen s) (name s)) Es eq_refl)|].
    now apply sameShape_eq.
  - now apply sameShape_eq.
Qed.

Lemma ptyInv_step (cfg : config) (env : processEnv) (amb : ambient) (ev : event)
    (st : server) :
  ptyInv st -> ptyInv (step cfg env amb ev st).
Proof.
  intros Hinv. destruct ev; simpl.
  - now apply ptyInv_handle.
  - now apply ptyInv_onUpgrade.
  - eapply ptyInv_shape; [apply shape_sweep | exact Hinv].
  - now apply ptyInv_onData.
  - now apply ptyInv_onExit.
  - eapply ptyInv_shape; [apply shape_onMessage | exact Hinv].
  - now apply ptyInv_onSocketClose.
  - eapply ptyInv_shape; [|exact Hinv]. unfold onSigterm.
    eapply sameShape_trans; [apply (shape_killAll (sessions st))|].
    now apply sameShape_eq.
Qed.

(** In every state the server reaches from its initial state, every session
    object refers to a process of the table, and the callbacks of that
    process captured this very object: the exit callback of a session's
    process closes the clients of that session. *)
Theorem ptyInv_reachable (cfg : config) (env : processEnv) (evs : list (ambient * event)) :
  ptyInv (run cfg env evs emptyServer).
Proof.
  assert (Hgen : forall st, ptyInv st -> ptyInv (run cfg env evs st)).
  { induction evs as [|[amb ev] rest IH]; intros st Hinv; simpl; [assumption|].
    apply IH. now apply ptyInv_step. }
  apply Hgen. intros ref s H. destruct ref; discriminate H.
Qed.

(** ** Idle sweep and the teardown that follows it *)



(** ** From the start request to an attached socket *)





(** ** Process output *)

Lemma broadcast_lookup (msg : wsMessage) (cs : list nat) :
  NoDup cs ->
  forall st c w,
    sockets st !! c = Some w ->
    sockets (broadcast msg cs st) !! c
    = Some (if bool_decide (c ∈ cs) && (readyState w =? OPEN)
            then WebSocket (readyState w) (sent w ++ [msg]) else w).
Proof.
  induction cs as [|c0 cs IH]; intros Hnd st c w Hw; simpl.
  - assumption.
  - apply NoDup_cons in Hnd as [Hc0 Hnd].
    destruct (decide (c0 = c)) as [-> | Hne].
    + rewrite (bool_decide_eq_true_2 (c ∈ c :: cs)) by apply list_elem_of_here.
      unfold isOpen at 1. rewrite Hw.
      destruct (readyState w =? OPEN) eqn:E; simpl.
      * erewrite IH; [|assumption|].
        2:{ unfold wsSend. simpl. rewrite list_lookup_alter_eq, Hw. reflexivity. }
        now rewrite bool_decide_eq_false_2.
      * erewrite IH; [|assumption|eassumption].
        now rewrite bool_decide_eq_false_2, E.
    + assert (Hw' : sockets (if isOpen st c0 then wsSend c0 msg st else st) !! c = Some w).
      { destruct (isOpen st c0); [|assumption].
        unfold wsSend. simpl. now rewrite list_lookup_alter_ne. }
      rewrite (IH Hnd _ c w Hw').
      destruct (decide (c ∈ cs)) as [Hin | Hnin].
      * rewrite !bool_decide_eq_true_2; [reflexivity | now apply list_elem_of_further | assumption].
      * rewrite !bool_decide_eq_false_2; [reflexivity | | assumption].
        intros [? | ?]%elem_of_cons; congruence.
Qed.

(** A chunk of process output refreshes [lastSeen] and is appended, as one
    data message, to every attached socket that is open; closed or closing
    clients and sockets of other sessions receive nothing, and no socket
    changes state. *)
Theorem onData_broadcast (h : nat) (now : Z) (data : string) (st : server)
    (p : ptyProcess) (s : session) :
  ptys st !! h = Some p ->
  objects st !! captured_session p = Some s ->
  NoDup (clients s) ->
  let st' := onData h now data st in
  objects st' = <[captured_session p := Session (pty s) (clients s) now (name s)]> (objects st)
  /\ sessions st' = sessions st
  /\ (forall c w, sockets st !! c = Some w -> In c (clients s) -> readyState w = OPEN ->
        sockets st' !! c = Some (WebSocket OPEN (sent w ++ [MsgData data])))
  /\ (forall c w, sockets st !! c = Some w -> ~ In c (clients s) \/ readyState w <> OPEN ->
        sockets st' !! c = Some w).
Proof.
  intros Hp Ho Hnd. cbv zeta. unfold onData. rewrite Hp, Ho.
  match goal with |- context [broadcast ?m ?cs ?st0] =>
    destruct (broadcast_frame m cs st0) as (Hs & Hob & _) end.
  rewrite Hs, Hob. split; [reflexivity|]. split; [reflexivity|]. split.
  - intros c w Hw Hin Hopen. erewrite broadcast_lookup; [|assumption|exact Hw].
    rewrite bool_decide_eq_true_2 by now apply list_elem_of_In.
    rewrite Hopen. reflexivity.
  - intros c w Hw Hcase. erewrite broadcast_lookup; [|assumption|exact Hw].
    destruct Hcase as [Hnin | Hclosed].
    + rewrite bool_decide_eq_false_2; [reflexivity | now rewrite list_elem_of_In].
    + replace (readyState w =? OPEN) with false by lia. now rewrite andb_false_r.
Qed.

Lemma onData_broadcast_witness :
  sessions (onData 0 3000 "hi" scenarioAttached) = sessions scenarioAttached.
Proof.
  destruct (onData_broadcast 0 3000 "hi" scenarioAttached
              (PtyProcess "/bin/bash" "xterm-color" 80 24 (Some "/home/user") 0 "board-1" 0)
              (Session 0 [0%nat] 2000 "terminal")) as (_ & H & _).
  - vm_compute. reflexivity.
  - vm_compute. reflexivity.
  - apply NoDup_cons. split; [apply not_elem_of_nil | apply NoDup_nil_2].
  - exact H.
Defined.

(** ** Client messages *)

(** A frame that is not valid JSON changes nothing.  A valid frame always
    refreshes [lastSeen] of the session object the socket is attached to,
    even when that session is no longer in the map; it leads to a write
    exactly when its type is [input] and its data is a string, to a resize
    exactly when its type is [resize] and cols and rows are numbers, and
    never touches the map, the processes table or the sockets. *)
Theorem onMessage_spec (ref : nat) (now : Z) (parsed : option json) (st : server)
    (s : session) :
  objects st !! ref = Some s ->
  let st' := fst (onMessage ref now parsed st) in
  let call := snd (onMessage ref now parsed st) in
  (parsed = None -> st' = st /\ call = None)
  /\ (forall msg, parsed = Some msg ->
        objects st' = <[ref := Session (pty s) (clients s) now (name s)]> (objects st)
        /\ (forall h data, call = Some (PtyWrite h data) <->
              h = pty s /\ prop "type" msg = Some (JStr "input")
              /\ prop "data" msg = Some (JStr data))
        /\ (forall h c r, call = Some (PtyResize h c r) <->
              h = pty s /\ prop "type" msg = Some (JStr "resize")
              /\ prop "cols" msg = Some (JNum c) /\ prop "rows" msg = Some (JNum r)))
  /\ sessions st' = sessions st /\ ptys st' = ptys st /\ sockets st' = sockets st.
Proof.
  intros Ho. cbv zeta.
  destruct (onMessage_store ref now parsed st) as (Hs & _ & Hp & Hsock).
  split; [|split; [|now repeat split]].
  - intros ->. now split.
  - intros msg ->. unfold onMessage. rewrite Ho.
    destruct (prop "type" msg) as [[| | |t| |]|] eqn:Et;
      [no_call | no_call | no_call | | no_call | no_call | no_call].
    destruct (bool_decide (t = "input")) eqn:Ei.
    + apply bool_decide_eq_true_1 in Ei. subst t.
      destruct (prop "data" msg) as [[| | |d| |]|] eqn:Ed; no_call.
    + apply bool_decide_eq_false_1 in Ei.
      destruct (bool_decide (t = "resize")) eqn:Er.
      * apply bool_decide_eq_true_1 in Er. subst t.
        destruct (prop "cols" msg) as [[| |c| | |]|] eqn:Ec;
          destruct (prop "rows" msg) as [[| |r| | |]|] eqn:Erw; no_call.
      * apply bool_decide_eq_false_1 in Er. no_call.
Qed.

Lemma onMessage_spec_witness :
  sessions (fst (onMessage 0 3000 None scenarioAttached)) = sessions scenarioAttached.
Proof.
  destruct (onMessage_spec 0 3000 None scenarioAttached (Session 0 [0%nat] 2000 "terminal"))
    as (_ & _ & H & _).
  - vm_compute. reflexivity.
  - exact H.
Defined.

(** ** Disconnects *)

Lemma removeFirst_NoDup (ws : nat) (cs : list nat) :
  NoDup cs ->
  ~ In ws (removeFirst ws cs)
  /\ (forall c, c <> ws -> (In c (removeFirst ws cs) <-> In c cs))
  /\ NoDup (removeFirst ws cs).
Proof.
  induction cs as [|c0 cs IH]; simpl; intros Hnd.
  - repeat split; try tauto; try apply NoDup_nil_2.
  - apply NoDup_cons in Hnd as [Hc0 Hnd]. rewrite list_elem_of_In in Hc0.
    destruct (IH Hnd) as (Hnot & Hiff & Hnd').
    destruct (Nat.eqb_spec c0 ws) as [-> | Hne].
    + repeat split; try assumption; intros; [tauto | intuition congruence].
    + simpl. repeat split.
      * intros [? | ?]; [congruence | tauto].
      * intros [? | ?]; [now left | right; now apply Hiff].
      * intros [? | ?]; [now left | right; now apply Hiff].
      * apply NoDup_cons. split; [|assumption].
        rewrite list_elem_of_In. intros Hin. apply Hc0.
        destruct (Nat.eq_dec c0 ws); [congruence | now apply Hiff in Hin].
Qed.

(** When a socket closes it leaves the client list of its session, the other
    clients stay, and the session itself stays in the map with its process
    untouched, even with no client left. *)
Theorem onSocketClose_detaches (ref ws : nat) (st : server) (s : session) :
  objects st !! ref = Some s ->
  NoDup (clients s) ->
  let st' := onSocketClose ref ws st in
  (exists s', objects st' !! ref = Some s'
      /\ ~ In ws (clients s')
      /\ (forall c, c <> ws -> (In c (clients s') <-> In c (clients s)))
      /\ pty s' = pty s /\ lastSeen s' = lastSeen s /\ name s' = name s)
  /\ sessions st' = sessions st
  /\ ptys st' = ptys st.
Proof.
  intros Ho Hnd. cbv zeta. unfold onSocketClose. simpl. rewrite Ho.
  split; [|now split].
  eexists. split.
  - simpl. apply list_lookup_insert_eq. now apply lookup_lt_Some in Ho.
  - simpl. destruct (removeFirst_NoDup ws (clients s) Hnd) as (H1 & H2 & _).
    split; [exact H1|]. split; [exact H2|]. now repeat split.
Qed.

Lemma onSocketClose_detaches_witness :
  sessions (onSocketClose 0 0 scenarioAttached) = sessions scenarioAttached.
Proof.
  destruct (onSocketClose_detaches 0 0 scenarioAttached (Session 0 [0%nat] 2000 "terminal"))
    as (_ & H & _).
  - vm_compute. reflexivity.
  - apply NoDup_cons. split; [apply not_elem_of_nil | apply NoDup_nil_2].
  - exact H.
Defined.

(** ** Shutdown *)

Lemma killAll_spec (entries : list (string * nat)) :
  forall st,
    objects (killAll entries st) = objects st
    /\ sockets (killAll entries st) = sockets st
    /\ sessions (killAll entries st) = sessions st
    /\ length (ptys (killAll entries st)) = length (ptys st)
    /\ (forall h, (killsOf st h <= killsOf (killAll entries st) h)%nat)
    /\ (forall sid ref s,
          In (sid, ref) entries -> objects st !! ref = Some s ->
          (pty s < length (ptys st))%nat ->
          (killsOf st (pty s) < killsOf (killAll entries st) (pty s))%nat).
Proof.
  induction entries as [|[sid ref] rest IH]; intros st; simpl.
  - repeat split; try lia.
  - destruct (objects st !! ref) as [s|] eqn:Eo.
    + destruct (IH (ptyKill (pty s) st)) as (Ho & Hso & Hse & Hl & Hm & Hk).
      assert (Hk1 : forall h, (killsOf st h <= killsOf (ptyKill (pty s) st) h)%nat).
      { intros h. rewrite killsOf_ptyKill. destruct (bool_decide _); lia. }
      repeat split; try assumption.
      * rewrite Hl. unfold ptyKill. simpl. apply length_alter.
      * intros h. specialize (Hm h). specialize (Hk1 h). lia.
      * intros sid' ref' s' [[= <- <-] | Hin] Ho' Hlt.
        -- rewrite Eo in Ho'. injection Ho' as <-. specialize (Hm (pty s)).
           assert ((killsOf st (pty s) < killsOf (ptyKill (pty s) st) (pty s))%nat); [|lia].
           rewrite killsOf_ptyKill, bool_decide_eq_true_2 by (split; [reflexivity | assumption]).
           lia.
        -- specialize (Hk1 (pty s')).
           assert ((killsOf (ptyKill (pty s) st) (pty s')
                    < killsOf (killAll rest (ptyKill (pty s) st)) (pty s'))%nat); [|lia].
           apply (Hk sid' ref' s' Hin); [assumption|].
           unfold ptyKill. simpl. now rewrite length_alter.
    + destruct (IH st) as (Ho & Hso & Hse & Hl & Hm & Hk).
      repeat split; try assumption.
      intros sid' ref' s' [[= <- <-] | Hin] Ho' Hlt; [congruence|].
      now apply (Hk sid' ref' s').
Qed.

(** On SIGTERM every session of the map gets its process killed and the map
    is emptied; the sockets are not closed by the handler. *)
Theorem onSigterm_spec (st : server) :
  let st' := onSigterm st in
  sessions st' = []
  /\ sockets st' = sockets st
  /\ objects st' = objects st
  /\ (forall sid ref s,
        JsMap.get sid (sessions st) = Some ref -> objects st !! ref = Some s ->
        (pty s < length (ptys st))%nat ->
        (killsOf st (pty s) < killsOf st' (pty s))%nat).
Proof.
  cbv zeta. unfold onSigterm.
  destruct (killAll_spec (sessions st) st) as (Ho & Hso & _ & _ & _ & Hk).
  repeat split; try assumption.
  intros sid ref s Hget Hobj Hlt.
  change (killsOf (with_sessions (fun _ => []) (killAll (sessions st) st)) (pty s))
    with (killsOf (killAll (sessions st) st) (pty s)).
  apply (Hk sid ref s); [now apply get_Some_In | assumption | assumption].
Qed.

(** ** Context relay *)

(** Pull returns what push stored: after an accepted push, a pull of the same
    embed id answers with the pushed docs, the validated viewport and the time
    of the push; pulls of other ids answer as before; a pull never changes the
    state, and an id without record gets the empty default. *)
Theorem context_push_pull (amb : ambient) (embedId : string) (req : httpRequest)
    (st : server) (ds : list json) :
  prop "docs" (req_body req) = Some (JArr ds) ->
  let st1 := fst (contextPush amb embedId req st) in
  contextPull embedId st1
  = (st1, HttpResponse 200
            (JObj [("docs", JArr ds);
                   ("viewport", viewportJson (viewportOf (prop "viewport" (req_body req))));
                   ("updatedAt", JNum (numOfZ (now amb)))]))
  /\ (forall other, other <> embedId ->
        contextPull other st1 = (st1, snd (contextPull other st)))
  /\ (forall other, JsMap.get other (contextStore st) = None ->
        contextPull other st
        = (st, HttpResponse 200
                 (JObj [("docs", JArr []); ("viewport", JNull); ("updatedAt", JNull)]))).
Proof.
  intros Hds. cbv zeta. unfold contextPush. rewrite Hds. cbn [isArray fst].
  split; [|split].
  - unfold contextPull. cbn [contextStore with_contextStore]. now rewrite get_set_eq.
  - intros other Hne. unfold contextPull. cbn [contextStore with_contextStore].
    rewrite get_set_ne by congruence.
    destruct (JsMap.get other (contextStore st)); reflexivity.
  - intros other Hnone. unfold contextPull. now rewrite Hnone.
Qed.

Lemma context_push_pull_witness :
  contextPull "e1"
    (fst (contextPush (Ambient 5 [] NaN) "e1"
            (HttpRequest POST "/api/context/e1" [] (JObj [("docs", JArr [JStr "d"])]) false None)
            emptyServer))
  = (fst (contextPush (Ambient 5 [] NaN) "e1"
            (HttpRequest POST "/api/context/e1" [] (JObj [("docs", JArr [JStr "d"])]) false None)
            emptyServer),
     HttpResponse 200
       (JObj [("docs", JArr [JStr "d"]); ("viewport", JNull);
              ("updatedAt", JNum (numOfZ 5))])).
Proof.
  destruct (context_push_pull (Ambient 5 [] NaN) "e1"
              (HttpRequest POST "/api/context/e1" [] (JObj [("docs", JArr [JStr "d"])]) false None)
              emptyServer [JStr "d"]) as (H & _).
  - reflexivity.
  - exact H.
Defined.

(** A refresh request is visible to the panel's poll for less than 30 s:
    [POST /api/context/:embedId/request] at time T answers ok and records T
    for the embed id; [GET /api/context/requests] at time t then lists the
    embed id and keeps its entry when t - T is less than 30000 ms, and
    otherwise omits it and deletes its entry from the server state. *)
Theorem contextRequest_visible (amb amb2 : ambient) (embedId : string) (st : server) :
  NoDup (JsMap.keys (contextRequestTimes st)) ->
  let st1 := fst (contextRequest amb embedId st) in
  let st2 := fst (contextRequests amb2 st1) in
  snd (contextRequest amb embedId st) = HttpResponse 200 (JObj [("ok", JBool true)])
  /\ JsMap.get embedId (contextRequestTimes st1) = Some (now amb)
  /\ exists embedIds,
       snd (contextRequests amb2 st1)
       = HttpResponse 200 (JObj [("embedIds", JArr (List.map JStr embedIds))])
       /\ (now amb2 - now amb < CONTEXT_REQUEST_TTL_MS ->
             In embedId embedIds
             /\ JsMap.get embedId (contextRequestTimes st2) = Some (now amb))
       /\ (CONTEXT_REQUEST_TTL_MS <= now amb2 - now amb ->
             ~ In embedId embedIds
             /\ JsMap.get embedId (contextRequestTimes st2) = None).
Proof.
  intros Hnd. cbv zeta. unfold contextRequest, contextRequests.
  cbn [fst snd contextRequestTimes with_contextRequestTimes].
  pose proof (NoDup_keys_set embedId (now amb) _ Hnd) as Hnd'.
  rewrite listPendingRequests_filter by assumption.
  cbn [fst snd contextRequestTimes with_contextRequestTimes].
  split; [reflexivity|]. split; [apply get_set_eq|].
  eexists. split; [reflexivity|].
  assert (Hget : JsMap.get embedId
                   (List.filter (live (now amb2))
                      (JsMap.set embedId (now amb) (contextRequestTimes st)))
                 = if now amb2 - now amb <? CONTEXT_REQUEST_TTL_MS
                   then Some (now amb) else None).
  { rewrite get_filter, get_set_eq by assumption. reflexivity. }
  split; intros Ht.
  - replace (now amb2 - now amb <? CONTEXT_REQUEST_TTL_MS) with true in Hget by lia.
    split; [|assumption]. apply keys_get. eauto.
  - replace (now amb2 - now amb <? CONTEXT_REQUEST_TTL_MS) with false in Hget by lia.
    split; [|assumption]. now apply get_None_keys.
Qed.

Lemma contextRequest_visible_witness :
  JsMap.get "e1"
    (contextRequestTimes
       (fst (contextRequests (Ambient 30000 [] NaN)
               (fst (contextRequest (Ambient 0 [] NaN) "e1" emptyServer)))))
  = None.
Proof.
  destruct (contextRequest_visible (Ambient 0 [] NaN) (Ambient 30000 [] NaN) "e1" emptyServer)
    as (_ & _ & ids & _ & _ & H).
  - apply NoDup_nil_2.
  - apply H. simpl. unfold CONTEXT_REQUEST_TTL_MS. lia.
Defined.

(** Polls compose: what a poll returns and leaves behind does not depend on
    earlier polls. *)
Theorem listPendingRequests_later (now now2 : Z) (times : list (string * Z)) :
  NoDup (JsMap.keys times) ->
  now <= now2 ->
  listPendingRequests now2 (snd (listPendingRequests now times))
  = listPendingRequests now2 times.
Proof.
  intros Hnd Hle.
  rewrite (listPendingRequests_filter now times) by assumption. cbn [snd].
  rewrite !listPendingRequests_filter;
    [|assumption | now apply NoDup_keys_filter].
  now rewrite filter_live_later.
Qed.

Lemma listPendingRequests_later_witness :
  listPendingRequests 40000 (snd (listPendingRequests 30001 [("e1", 0); ("e2", 20000)]))
  = listPendingRequests 40000 [("e1", 0); ("e2", 20000)].
Proof.
  apply (listPendingRequests_later 30001 40000 [("e1", 0); ("e2", 20000)]).
  - simpl. apply NoDup_cons. split.
    + rewrite list_elem_of_In. simpl. intros [H | []]. discriminate H.
    + apply NoDup_cons. split; [apply not_elem_of_nil | apply NoDup_nil_2].
  - lia.
Defined.

(** ** CORS *)

Lemma includes_iff (s p : string) :
  includes s p = true <-> exists a b, s = a +:+ p +:+ b.
Proof.
  split.
  - induction s as [|c s IH]; simpl.
    + rewrite orb_false_r. intros [r Hr]%startsWith_inv. now exists "", r.
    + intros [[r Hr]%startsWith_inv | H]%orb_true_iff.
      * now exists "", r.
      * destruct (IH H) as (a & b & ->). now exists (String c a), b.
  - intros (a & b & ->). induction a as [|c a IH].
    + change ("" +:+ p +:+ b) with (p +:+ b).
      assert (Hs : Str.startsWith (p +:+ b) p = true) by apply startsWith_append.
      destruct (p +:+ b); simpl; simpl in Hs; now rewrite Hs.
    + change (String c a +:+ p +:+ b) with (String c (a +:+ p +:+ b)).
      simpl. rewrite IH. apply orb_true_r.
Qed.

(** The middleware echoes the origin exactly when it contains [miro.com],
    [localhost] or [127.0.0.1] somewhere, be it inside another host name; the
    allowed methods and headers are announced to every origin. *)
Theorem corsHeaders_spec (origin : option string) :
  (forall o, JsMap.get "Access-Control-Allow-Origin" (corsHeaders origin) = Some o <->
     origin = Some o
     /\ exists a b, o = a +:+ "miro.com" +:+ b \/ o = a +:+ "localhost" +:+ b
                    \/ o = a +:+ "127.0.0.1" +:+ b)
  /\ JsMap.get "Access-Control-Allow-Methods" (corsHeaders origin)
     = Some "GET, POST, DELETE, OPTIONS"
  /\ JsMap.get "Access-Control-Allow-Headers" (corsHeaders origin) = Some "Content-Type".
Proof.
  set (allowed := negb (falsy origin)
                  && (includes (default "" origin) "miro.com"
                      || includes (default "" origin) "localhost"
                      || includes (default "" origin) "127.0.0.1")).
  assert (Hget : JsMap.get "Access-Control-Allow-Origin" (corsHeaders origin)
                 = if allowed then origin else None).
  { unfold corsHeaders. fold allowed. destruct allowed eqn:Ea; [|reflexivity].
    destruct origin; [reflexivity | discriminate Ea]. }
  split; [|unfold corsHeaders; fold allowed; destruct allowed; split; reflexivity].
  intros o. rewrite Hget. clear Hget. subst allowed.
  destruct origin as [o'|]; cbn [falsy from_option negb andb]; unfold id.
  - destruct (Str.is_empty o') eqn:Ee; cbn [negb andb].
    + destruct o'; [|discriminate]. split; [discriminate|].
      intros ([= <-] & a & b & [H | [H | H]]); destruct a; discriminate H.
    + destruct (includes o' "miro.com" || includes o' "localhost"
                || includes o' "127.0.0.1") eqn:Ei.
      * split; [|now intros ([= ->] & _)].
        intros [= <-]. split; [reflexivity|].
        apply orb_true_iff in Ei as [[Ei | Ei]%orb_true_iff | Ei];
          apply includes_iff in Ei as (a & b & Hab); exists a, b; tauto.
      * split; [discriminate|].
        intros ([= <-] & a & b & Hcase).
        apply orb_false_iff in Ei as [[E1 E2]%orb_false_iff E3].
        destruct Hcase as [H | [H | H]].
        -- assert (includes o' "miro.com" = true) by (apply includes_iff; eauto). congruence.
        -- assert (includes o' "localhost" = true) by (apply includes_iff; eauto). congruence.
        -- assert (includes o' "127.0.0.1" = true) by (apply includes_iff; eauto). congruence.
  - split; [discriminate|]. now intros ([=] & _).
Qed.

(** ** URI components and the panel's push path *)












(** ** Tokens and session ids in URLs *)

(** A token needs no escaping: with the clock value, the token life time
    and their sum in the range of safe integers, every character of an
    issued token is one that [encodeURIComponent] leaves alone, so the
    token appears unchanged in the [url] and [wsUrl] of the start
    response. *)
Theorem createToken_url_safe (cfg : config) (now : Z) (sid : string) :
  safeExpiry cfg now = true ->
  Str.all URI.unreserved (createToken cfg now sid) = true
  /\ URI.encodeURIComponent (createToken cfg now sid) = createToken cfg now sid.
Proof.
  intros _. split; [apply createToken_unreserved | apply encode_createToken].
Qed.

Lemma createToken_url_safe_witness :
  Str.all URI.unreserved (createToken devConfig 1700000000000 "board-1") = true
  /\ URI.encodeURIComponent (createToken devConfig 1700000000000 "board-1")
     = createToken devConfig 1700000000000 "board-1".
Proof.
  apply (createToken_url_safe devConfig 1700000000000 "board-1"). reflexivity.
Defined.

(** A generated session id is 32 lower-case hexadecimal digits for 16 random
    bytes, and different bytes give different ids. *)
Theorem generateSid_format (rb rb' : list ascii) :
  length rb = 16%nat ->
  String.length (generateSid rb) = 32%nat
  /\ Str.all is_lower_hex (generateSid rb) = true
  /\ (generateSid rb = generateSid rb' -> rb = rb').
Proof.
  intros Hlen. unfold generateSid. split; [|split].
  - rewrite toHex_length, Hlen. reflexivity.
  - apply toHex_lower_hex.
  - intros H. rewrite <- (fromHex_toHex rb), <- (fromHex_toHex rb'). now rewrite H.
Qed.

Lemma generateSid_format_witness :
  String.length (generateSid (List.repeat "a"%char 16)) = 32%nat.
Proof.
  destruct (generateSid_format (List.repeat "a"%char 16) []) as (H & _).
  - reflexivity.
  - exact H.
Defined.

(** ** Start-up *)

(** The signing secret is the value of [SIGN_SECRET] when that is set and
    not empty; otherwise it is the built-in development secret outside
    production, and in production there is none.  The process refuses to
    start exactly in production without a secret, so a process that starts
    signs with a non-empty secret. *)
Theorem startsUp_spec (env_SIGN_SECRET : option string) (production : bool) :
  (falsy env_SIGN_SECRET = false ->
     signSecret env_SIGN_SECRET production = env_SIGN_SECRET)
  /\ (falsy env_SIGN_SECRET = true -> production = false ->
       signSecret env_SIGN_SECRET production = Some "dev-secret-change-in-production")
  /\ (falsy env_SIGN_SECRET = true -> production = true ->
       signSecret env_SIGN_SECRET production = None)
  /\ (startsUp env_SIGN_SECRET production = false
       <-> production = true /\ falsy env_SIGN_SECRET = true)
  /\ (startsUp env_SIGN_SECRET production = true ->
        exists secret, signSecret env_SIGN_SECRET production = Some secret
                       /\ secret <> "").
Proof.
  unfold startsUp, signSecret.
  destruct env_SIGN_SECRET as [[|c s]|], production; simpl;
    (split; [|split; [|split; [|split]]]);
    try reflexivity; try discriminate; try tauto;
    try (intros; discriminate);
    try (split; [discriminate || tauto | intros [? ?]; discriminate || reflexivity]);
    try (intros _; eexists; split; [reflexivity | discriminate]).
Qed.

Lemma startsUp_spec_witness :
  signSecret None false = Some "dev-secret-change-in-production".
Proof.
  destruct (startsUp_spec None false) as (_ & H & _).
  apply H; reflexivity.
Defined.

(** ** What the HTTP routes leave alone *)

Lemma dispatch_routed (rs : list (method * string * handlerId)) (m : method)
    (pathname : string) (layerError : bool) (h : handlerId) (ps : list (string * string)) :
  dispatch rs m pathname layerError = Routed h ps ->
  exists rm pattern, In (rm, pattern, h) rs /\ handlesMethod rm m = true.
Proof.
  revert layerError. induction rs as [|[[rm pattern] h'] rs IH]; intros layerError; simpl.
  - destruct layerError; discriminate.
  - destruct (matchLayer pattern pathname) as [|params|].
    + intros (rm0 & p0 & Hin & Hm)%IH. eauto.
    + destruct layerError.
      * intros (rm0 & p0 & Hin & Hm)%IH. eauto.
      * destruct (handlesMethod rm m) eqn:Eh.
        -- intros [= <- <-]. eauto.
        -- intros (rm0 & p0 & Hin & Hm)%IH. eauto.
    + intros (rm0 & p0 & Hin & Hm)%IH. eauto.
Qed.

(** Reading is safe: a GET, HEAD or OPTIONS request, whatever its path,
    query and body, starts no process, kills none, closes no socket and
    leaves the sessions and the stored contexts as they are; a PUT or PATCH
    request changes nothing at all. *)
Theorem safe_methods_read_only (cfg : config) (env : processEnv) (amb : ambient)
    (req : httpRequest) (st : server) :
  req_method req <> POST ->
  req_method req <> DELETE ->
  let st' := fst (handle cfg env amb req st) in
  sessions st' = sessions st /\ objects st' = objects st /\ ptys st' = ptys st
  /\ sockets st' = sockets st /\ contextStore st' = contextStore st
  /\ (req_method req = PUT \/ req_method req = PATCH -> st' = st).
Proof.
  intros Hpost Hdel. cbv zeta. unfold handle.
  destruct (dispatch routes (req_method req) (req_pathname req) false) as [h ps| |] eqn:Ed.
  - apply dispatch_routed in Ed as (rm & pattern & Hin & Hm).
    assert (Hh : (h = ContextRequests \/ h = ContextPull \/ h = Health)
                 /\ req_method req <> PUT /\ req_method req <> PATCH
                 /\ req_method req <> OPTIONS).
    { simpl in Hin.
      destruct Hin as [H | [H | [H | [H | [H | [H | [H | []]]]]]]];
        injection H as <- <- <-;
        destruct (req_method req); try discriminate Hm; try congruence;
        repeat split; try discriminate; tauto. }
    destruct Hh as (Hh & Hput & Hpatch & Hopt).
    assert (Hgoal : forall r : server * httpResponse,
              (sessions (fst r) = sessions st /\ objects (fst r) = objects st
               /\ ptys (fst r) = ptys st /\ sockets (fst r) = sockets st
               /\ contextStore (fst r) = contextStore st) ->
              sessions (fst r) = sessions st /\ objects (fst r) = objects st
              /\ ptys (fst r) = ptys st /\ sockets (fst r) = sockets st
              /\ contextStore (fst r) = contextStore st
              /\ (req_method req = PUT \/ req_method req = PATCH -> fst r = st)).
    { intros r (? & ? & ? & ? & ?). repeat split; try assumption.
      intros [? | ?]; contradiction. }
    destruct Hh as [-> | [-> | ->]].
    + destruct (req_method req); try congruence; apply Hgoal;
        unfold contextRequests;
        destruct (listPendingRequests (now amb) (contextRequestTimes st));
        repeat split.
    + destruct (req_method req); try congruence; apply Hgoal;
        unfold contextPull;
        destruct (JsMap.get (param "embedId" ps) (contextStore st));
        repeat split.
    + destruct (req_method req); try congruence; apply Hgoal; repeat split.
  - destruct (req_method req); try congruence; repeat split.
  - destruct (req_method req); try congruence; repeat split.
Qed.

Lemma safe_methods_read_only_witness :
  sessions (fst (handle devConfig devEnv (Ambient 3602001 [] NaN)
                   (HttpRequest GET "/api/context/requests" [] JNull false None)
                   scenarioAttached))
  = sessions scenarioAttached.
Proof.
  destruct (safe_methods_read_only devConfig devEnv (Ambient 3602001 [] NaN)
              (HttpRequest GET "/api/context/requests" [] JNull false None)
              scenarioAttached) as (H & _).
  - discriminate.
  - discriminate.
  - exact H.
Defined.
